(** * cobe brain: learning pipeline and reply engine

    A shallow embedding of [brain.go] (package [cobe]): the n-gram chain and
    edge builder ([toChain], [toEdges]), the learner ([Learn]), the
    constructor ([OpenBrain]) and the reply searcher and selector ([Reply]).

    Go values are modelled as follows.
    - [int], [tokenID], [nodeID], [edgeID] are [Z]; loop counters that start
      at zero and only grow are [nat], and are compared in [Z] wherever the
      source subtracts.
    - A slice is the list of its elements; the capacity of the one slice that
      is resliced ([tokens] in [toEdges]) is computed from its length.
    - A run-time panic is the [Panic] result; a Go [error] value is [Err].
    - A [float64] score is the rational number it denotes.
    - The graph store, the tokenizers and the scorer are not part of
      [brain.go]; they are the methods of the class [Collaborators].
    - Random draws come from a stream [rnd : nat -> nat] that is read in
      order; the wall clock is the number of times the deadline test of
      [Reply] succeeds.
    - What [Reply] prints and what [ToString] logs is left out, and so is
      [Close]. *)

From Stdlib Require Import ZArith List String Ascii Bool Lia QArith Permutation
  Sorted Lqa.
From stdpp Require Import base list gmap strings.

Local Open Scope Z_scope.

(** ** Results of running Go code *)

Inductive panic : Set :=
| SliceBoundsOutOfRange
| NilDereference
| InvalidArgumentToIntn.

Inductive result (A : Type) : Type :=
| Ok (a : A)
| Panic (p : panic).

Arguments Ok {A} a.
Arguments Panic {A} p.

Definition bind {A B : Type} (r : result A) (k : A -> result B) : result B :=
  match r with
  | Ok a => k a
  | Panic p => Panic p
  end.

Notation "'let*' x ':=' r 'in' k" := (bind r (fun x => k))
  (at level 10, x name, r at level 100, k at level 200).

(** A Go [error] is its message. *)
Abbreviation error := string (only parsing).

Inductive errorOr (A : Type) : Type :=
| Val (a : A)
| Err (e : error).

Arguments Val {A} a.
Arguments Err {A} e.

(** ** What the Go runtime chooses *)

Class GoRuntime : Type := {
  (** [append] onto a full slice allocates a backing array for the new
      length plus some room.  [appendSlack len] is that room for a slice
      that reached length [len] by single appends starting from [nil]. *)
  appendSlack : nat -> nat;
  (** [for k := range m] visits the keys of a map in an order the runtime
      picks, here from a random draw. *)
  rangeOrder : forall K : Type, nat -> list K -> list K;
  rangeOrder_perm : forall (K : Type) (r : nat) (l : list K),
    Permutation (rangeOrder K r l) l
}.

Arguments rangeOrder {_ K} r l.

Module Go.

(** The capacity of a slice built from [nil] by [len] single appends.  The
    [nil] slice has capacity 0. *)
Definition capOfAppended `{GoRuntime} (len : nat) : nat :=
  match len with
  | O => O
  | S _ => (len + appendSlack len)%nat
  end.

(** [s[0:high]] on a slice [s] of integers built by appends: the upper bound
    is checked against the capacity, not the length; the entries between
    the length and [high] are the zeroed tail of the backing array. *)
Definition sliceTo `{GoRuntime} (s : list Z) (high : Z) : result (list Z) :=
  if (0 <=? high) && (high <=? Z.of_nat (capOfAppended (length s)))
  then Ok (take (Z.to_nat high) s ++ replicate (Z.to_nat high - length s) 0)
  else Panic SliceBoundsOutOfRange.

(** [s[low:high]] with [low <= high <= len(s)]. *)
Definition slice {A : Type} (s : list A) (low high : nat) : list A :=
  take (high - low) (drop low s).

(** [rand.Intn(n)] on the raw draw [r]. *)
Definition Intn (r : nat) (n : Z) : result Z :=
  if n <=? 0 then Panic InvalidArgumentToIntn else Ok (Z.of_nat r mod n).

(** [strings.ToLower] on one byte.  The names [getTokenizer] compares with
    are ASCII and hold neither [k] nor [i], the only ASCII letters that a
    rune outside ASCII lowers to, so bytes outside [A-Z] are left alone. *)
Definition lowerByte (c : ascii) : ascii :=
  let n := nat_of_ascii c in
  if ((65 <=? n) && (n <=? 90))%nat then ascii_of_nat (n + 32) else c.

Fixpoint ToLower (s : string) : string :=
  match s with
  | EmptyString => EmptyString
  | String c s' => String (lowerByte c) (ToLower s')
  end.

End Go.

(** ** Data model *)

Abbreviation tokenID := Z (only parsing).
Abbreviation nodeID := Z (only parsing).
Abbreviation edgeID := Z (only parsing).

Definition spaceTokenID : tokenID := -1.

Record edge : Type := mkEdge {
  prev : list tokenID;
  next : list tokenID;
  hasSpace : bool
}.

Inductive tokenizer : Set :=
| cobeTokenizer
| megaHALTokenizer.

Inductive direction : Set :=
| Forward
| Reverse.

Record reply : Type := mkReply {
  edges : list edgeID;
  hasText : bool;
  text : string
}.

(** A path generator of the store: [paths j] is what the [j]-th call of
    [Next] finds ([None]: exhausted), [lastPath] what [Result] returns. *)
Record searchIter : Type := mkIter {
  paths : nat -> option (list edgeID);
  position : nat;
  lastPath : list edgeID
}.

(** The code of this package that [brain.go] calls and does not define. *)
Class Collaborators (graph : Type) : Type := {
  openGraph : string -> errorOr graph;
  GetInfoString : graph -> string -> errorOr string;
  getOrder : graph -> Z;
  endTokenID : graph -> tokenID;
  endContextID : graph -> nodeID;
  GetOrCreateToken : graph -> string -> graph * tokenID;
  GetOrCreateNode : graph -> list tokenID -> graph * nodeID;
  addEdge : graph -> nodeID -> nodeID -> bool -> graph;
  filterPivots : graph -> list string -> list tokenID;
  getTokensByStem : graph -> string -> list tokenID;
  (** the three random methods take the draw they use *)
  getRandomToken : graph -> nat -> Z;
  getRandomNodeWithToken : graph -> nat -> tokenID -> nodeID;
  search : graph -> nat -> nodeID -> nodeID -> direction
           -> nat -> option (list edgeID);
  getTextByEdge : graph -> edgeID -> string * bool * option error;
  Split : tokenizer -> string -> list string;
  Score : graph -> reply -> Q
}.

(** [tok] is an interface value: [None] is [nil]. *)
Record Brain (graph : Type) : Type := mkBrain {
  graphOf : graph;
  tok : option tokenizer
}.

Arguments mkBrain {graph} _ _.
Arguments graphOf {graph} _.
Arguments tok {graph} _.

(** ** Constructor *)

Definition getTokenizer (name : string) : option tokenizer :=
  let lower := Go.ToLower name in
  if String.eqb lower "cobe" then Some cobeTokenizer
  else if String.eqb lower "megahal" then Some megaHALTokenizer
  else None.

Definition OpenBrain `{Collaborators graph} (path : string)
  : errorOr (Brain graph) :=
  match openGraph path with
  | Err err => Err err
  | Val g =>
    match GetInfoString g "version" with
    | Err err => Err err
    | Val version =>
      if negb (String.eqb version "2")
      then Err (String.append "cannot read version "
                  (String.append version " brain"))
      else
        match GetInfoString g "tokenizer" with
        | Err err => Err err
        | Val tokenizerName => Val (mkBrain g (getTokenizer tokenizerName))
        end
    end
  end.

(** ** Chain and edge builder *)

(** [toChain]: [order] sentinels, the token ids, [order] sentinels; the
    sentinel is [endTokenID] of the store [g] of the brain.  Each counting
    loop runs [order] times, or not at all when [order <= 0]. *)
Definition toChain `{Collaborators graph} (g : graph) (order : Z)
    (tokenIds : list tokenID) : list tokenID :=
  let chain :=
    Nat.iter (Z.to_nat order) (fun chain => chain ++ [endTokenID g]) [] in
  let chain := chain ++ tokenIds in
  Nat.iter (Z.to_nat order) (fun chain => chain ++ [endTokenID g]) chain.

(** The first loop of [toEdges]: [i] is the loop counter, [tokens] and
    [spaces] the two slices being built.  Every pass moves [i] forward, so
    [length tokenIds] passes are enough. *)
Fixpoint compactLoop (fuel : nat) (tokenIds : list tokenID) (i : nat)
    (tokens : list tokenID) (spaces : list Z) : list tokenID * list Z :=
  match fuel with
  | O => (tokens, spaces)
  | S fuel' =>
    if (i <? length tokenIds)%nat then
      let tokens := tokens ++ [nth i tokenIds 0] in
      if (Z.of_nat i <? Z.of_nat (length tokenIds) - 1)
         && (nth (i + 1) tokenIds 0 =? spaceTokenID)
      then compactLoop fuel' tokenIds (i + 2) tokens
             (spaces ++ [Z.of_nat (length tokens)])
      else compactLoop fuel' tokenIds (i + 1) tokens spaces
    else (tokens, spaces)
  end.

Definition compact (tokenIds : list tokenID) : list tokenID * list Z :=
  compactLoop (length tokenIds) tokenIds 0 [] [].

(** The test on the head of [spaces] in the second loop of [toEdges]. *)
Definition takeSpace (spaces : list Z) (last : Z) : bool * list Z :=
  match spaces with
  | s :: rest => if s =? last then (true, rest) else (false, spaces)
  | [] => (false, [])
  end.

(** The second loop of [toEdges], from counter value [i]. *)
Fixpoint edgeLoop (fuel : nat) (order : Z) (tokens : list tokenID) (i : nat)
    (spaces : list Z) (prev : list tokenID) (ret : list edge) : list edge :=
  match fuel with
  | O => ret
  | S fuel' =>
    if Z.of_nat i <? Z.of_nat (length tokens) - order + 1 then
      let next := Go.slice tokens i (i + Z.to_nat order) in
      let '(hasSpace, spaces) := takeSpace spaces (Z.of_nat i + order - 1) in
      edgeLoop fuel' order tokens (i + 1) spaces next
        (ret ++ [mkEdge prev next hasSpace])
    else ret
  end.

Definition toEdges `{GoRuntime} (order : Z) (tokenIds : list tokenID)
  : result (list edge) :=
  let '(tokens, spaces) := compact tokenIds in
  let* prev := Go.sliceTo tokens order in
  Ok (edgeLoop (length tokens) order tokens 1 spaces prev []).

(** ** Learner *)

Definition countGoodTokens (tokens : list string) : Z :=
  foldl (fun count token => if String.eqb token " " then count else count + 1)
        0 tokens.

(** [forEdges] with the state [S] that the callback [f] updates. *)
Definition forEdges `{GoRuntime} `{Collaborators graph} {S : Type} (g : graph)
    (tokenIds : list tokenID)
    (f : S -> list tokenID -> list tokenID -> bool -> S) (s : S) : result S :=
  let order := getOrder g in
  let chain := toChain g order tokenIds in
  let* edges := toEdges order chain in
  Ok (foldl (fun s e => f s e.(prev) e.(next) e.(hasSpace)) s edges).

(** The callback of [Learn]; its state is the store and [prevNode]. *)
Definition learnEdge `{Collaborators graph} (s : graph * nodeID)
    (prev next : list tokenID) (hasSpace : bool) : graph * nodeID :=
  let '(g, prevNode) := s in
  let '(g, prevNode) :=
    if prevNode =? 0 then GetOrCreateNode g prev else (g, prevNode) in
  let '(g, nextNode) := GetOrCreateNode g next in
  (addEdge g prevNode nextNode hasSpace, nextNode).

(** The loop of [Learn] that resolves the token ids. *)
Definition learnTokens `{Collaborators graph} (g : graph) (tokens : list string)
  : graph * list tokenID :=
  foldl (fun '(g, tokenIds) text =>
           if String.eqb text " " then (g, tokenIds ++ [spaceTokenID])
           else let '(g, id) := GetOrCreateToken g text in (g, tokenIds ++ [id]))
        (g, []) tokens.

(** [Learn] returns the store it leaves behind. *)
Definition Learn `{GoRuntime} `{Collaborators graph} (b : Brain graph)
    (text : string) : result graph :=
  match b.(tok) with
  | None => Panic NilDereference
  | Some t =>
    let tokens := Split t text in
    if countGoodTokens tokens <=? getOrder b.(graphOf) then Ok b.(graphOf)
    else
      let '(g, tokenIds) := learnTokens b.(graphOf) tokens in
      let* s := forEdges g tokenIds learnEdge (g, 0) in
      Ok s.1
  end.

(** ** Reply searcher and selector *)

(** Code that draws random numbers and may panic: the state is the number
    of draws made so far. *)
Definition M (A : Type) : Type := nat -> result (A * nat).

Definition retM {A : Type} (a : A) : M A := fun n => Ok (a, n).

Definition bindM {A B : Type} (m : M A) (k : A -> M B) : M B :=
  fun n => match m n with
           | Ok (a, n') => k a n'
           | Panic p => Panic p
           end.

Definition draw (rnd : nat -> nat) : M nat := fun n => Ok (rnd n, S n).

Definition liftM {A : Type} (r : result A) : M A :=
  fun n => match r with Ok a => Ok (a, n) | Panic p => Panic p end.

Notation "'let!' x ':=' m 'in' k" := (bindM m (fun x => k))
  (at level 10, x name, m at level 100, k at level 200).

(** [join]: the loop appends [rev[len-1]], ..., [rev[0]]. *)
Definition join (rev fwd : list edgeID) : list edgeID :=
  let edges := foldr (fun e edges => edges ++ [e]) [] rev in
  edges ++ fwd.

Definition newReply (edges : list edgeID) : reply := mkReply edges false "".

(** [Next] on a path generator: whether a path was found, and the
    generator afterwards. *)
Definition Next (it : searchIter) : bool * searchIter :=
  match it.(paths) it.(position) with
  | Some p => (true, mkIter it.(paths) (S it.(position)) p)
  | None => (false, it)
  end.

(** The closure [replySearch] returns, as a function of the two generators
    it has captured. *)
Definition nextEdges (it : searchIter * searchIter)
  : option (list edgeID) * (searchIter * searchIter) :=
  let '(revIter, fwdIter) := it in
  let '(found, revIter) := Next revIter in
  if negb found then (None, (revIter, fwdIter))
  else
    let '(found, fwdIter) := Next fwdIter in
    if negb found then (None, (revIter, fwdIter))
    else (Some (join revIter.(lastPath) fwdIter.(lastPath)), (revIter, fwdIter)).

(** The state of the loop of [Reply]. *)
Record selection : Type := mkSelection {
  bestReply : option reply;
  bestScore : Q;
  count : Z
}.

Section ReplyEngine.

Context `{GoRuntime} `{Collaborators graph}.
Variable rnd : nat -> nat.
Variable g : graph.

Definition unique (tokens : list string) : M (list string) :=
  let m : gmap string Z :=
    foldl (fun m token => <[token := default 0 (m !! token) + 1]> m) ∅ tokens in
  let! r := draw rnd in
  retM (rangeOrder r (map fst (map_to_list m))).

Definition uniqueIds (ids : list tokenID) : M (list tokenID) :=
  let m : gmap Z Z :=
    foldl (fun m id => <[id := default 0 (m !! id) + 1]> m) ∅ ids in
  let! r := draw rnd in
  retM (rangeOrder r (map fst (map_to_list m))).

Definition conflateStems (tokens : list string) : list tokenID :=
  foldl (fun ret token => ret ++ getTokensByStem g token) [] tokens.

Fixpoint babbleLoop (passes : nat) (tokenIds : list tokenID) : M (list tokenID) :=
  match passes with
  | O => retM tokenIds
  | S passes' =>
    let! r := draw rnd in
    let t := getRandomToken g r in
    babbleLoop passes' (if 0 <? t then tokenIds ++ [t] else tokenIds)
  end.

Definition babble : M (list tokenID) := babbleLoop 5 [].

Definition pickPivot (tokenIds : list tokenID) : M tokenID :=
  let! r := draw rnd in
  let! i := liftM (Go.Intn r (Z.of_nat (length tokenIds))) in
  retM (nth (Z.to_nat i) tokenIds 0).

Definition replySearch (tokenIds : list tokenID) : M (searchIter * searchIter) :=
  let! pivotID := pickPivot tokenIds in
  let! r := draw rnd in
  let pivotNode := getRandomNodeWithToken g r pivotID in
  let endNode := endContextID g in
  let! r := draw rnd in
  let revIter := mkIter (search g r pivotNode endNode Reverse) 0 [] in
  let! r := draw rnd in
  let fwdIter := mkIter (search g r pivotNode endNode Forward) 0 [] in
  retM (revIter, fwdIter).

Definition ToString (r : reply) : string :=
  if r.(hasText) then r.(text)
  else
    let parts :=
      foldl (fun parts e =>
               let '(word, hasSpace, _) := getTextByEdge g e in
               let parts := parts ++ [word] in
               if hasSpace then parts ++ [" "%string] else parts)
            [] r.(edges) in
    String.concat "" parts.

(** One pass of the loop of [Reply] up to the scoring: the candidate it
    builds, if any, and the search it continues with. *)
Definition attempt (tokenIds : list tokenID) (it : searchIter * searchIter)
  : M (option reply * (searchIter * searchIter)) :=
  let '(found, it) := nextEdges it in
  match found with
  | None =>
    let! it := replySearch tokenIds in
    retM (None, it)
  | Some edges => retM (Some (newReply edges), it)
  end.

(** The scoring and comparison of one candidate. *)
Definition consider (sel : selection) (r : reply) : selection :=
  let score := Score g r in
  let sel :=
    if negb (Qle_bool score sel.(bestScore))
    then mkSelection (Some r) score sel.(count)
    else sel in
  mkSelection sel.(bestReply) sel.(bestScore) (sel.(count) + 1).

(** The loop of [Reply]; the deadline test succeeds [ticks] times. *)
Fixpoint replyLoop (ticks : nat) (tokenIds : list tokenID)
    (it : searchIter * searchIter) (sel : selection) : M selection :=
  match ticks with
  | O => retM sel
  | S ticks' =>
    let! a := attempt tokenIds it in
    replyLoop ticks' tokenIds a.2
      (match a.1 with Some r => consider sel r | None => sel end)
  end.

(** The pivot candidates [Reply] searches from. *)
Definition pivotCandidates (tokens : list string) : M (list tokenID) :=
  let! uniq := unique tokens in
  let tokenIds := filterPivots g uniq in
  let stemTokenIds := conflateStems tokens in
  let! tokenIds := uniqueIds (tokenIds ++ stemTokenIds) in
  if (length tokenIds =? 0)%nat then babble else retM tokenIds.

Definition replyOf (sel : selection) : string :=
  match sel.(bestReply) with
  | None => "no replies :  ("%string
  | Some r => ToString r
  end.

Definition replyM (tokens : list string) (ticks : nat) : M string :=
  let! tokenIds := pivotCandidates tokens in
  let! it := replySearch tokenIds in
  let! sel := replyLoop ticks tokenIds it (mkSelection None (-1) 0) in
  retM (replyOf sel).

(** The candidates the loop scores, in the order it scores them. *)
Fixpoint scoredLoop (ticks : nat) (tokenIds : list tokenID)
    (it : searchIter * searchIter) : M (list reply) :=
  match ticks with
  | O => retM []
  | S ticks' =>
    let! a := attempt tokenIds it in
    let! rest := scoredLoop ticks' tokenIds a.2 in
    retM (match a.1 with Some r => r :: rest | None => rest end)
  end.

Definition scoredM (tokens : list string) (ticks : nat) : M (list reply) :=
  let! tokenIds := pivotCandidates tokens in
  let! it := replySearch tokenIds in
  scoredLoop ticks tokenIds it.

End ReplyEngine.

Definition Reply `{GoRuntime} `{Collaborators graph} (rnd : nat -> nat)
    (ticks : nat) (b : Brain graph) (text : string) : result string :=
  match b.(tok) with
  | None => Panic NilDereference
  | Some t =>
    let* out := replyM rnd b.(graphOf) (Split t text) ticks 0%nat in
    Ok out.1
  end.

(** The candidates a call of [Reply] scores. *)
Definition scored `{GoRuntime} `{Collaborators graph} (rnd : nat -> nat)
    (ticks : nat) (b : Brain graph) (text : string) : result (list reply) :=
  match b.(tok) with
  | None => Panic NilDereference
  | Some t =>
    let* out := scoredM rnd b.(graphOf) (Split t text) ticks 0%nat in
    Ok out.1
  end.

(** ** Helpers of the tests *)

(** The loop of [nodeEqual], from counter value [i]. *)
Fixpoint nodeEqualLoop (fuel : nat) (a b : list tokenID) (i : nat) : bool :=
  match fuel with
  | O => true
  | S fuel' =>
    if (i <? length a)%nat then
      if negb (nth i a 0 =? nth i b 0) then false
      else nodeEqualLoop fuel' a b (i + 1)
    else true
  end.

Definition nodeEqual (a b : list tokenID) : bool :=
  if negb (length a =? length b)%nat then false
  else nodeEqualLoop (length a) a b 0.

Definition edgeEqual (a b : edge) : bool :=
  nodeEqual a.(prev) b.(prev) && nodeEqual a.(next) b.(next)
  && Bool.eqb a.(hasSpace) b.(hasSpace).

(** ** A runtime and a store to run the model on *)

(** The growth of the Go runtime for short slices of 8-byte entries: the
    capacity is the next power of two. *)
Definition goSlack (len : nat) : nat := (2 ^ Nat.log2_up len - len)%nat.

(** A map is ranged over from a random starting point. *)
Definition goRange (K : Type) (r : nat) (l : list K) : list K :=
  drop (r mod length l) l ++ take (r mod length l) l.

Lemma goRange_perm (K : Type) (r : nat) (l : list K) :
  Permutation (goRange K r l) l.
Proof.
  unfold goRange. rewrite Permutation_app_comm. now rewrite take_drop.
Qed.

Definition goRuntime : GoRuntime :=
  {| appendSlack := goSlack; rangeOrder := goRange;
     rangeOrder_perm := goRange_perm |}.

(** Modelled from the spec: the graph store, the tokenizer and the scorer,
    which [brain.go] calls and does not define.  This is the in-memory
    double of section 8: tokens, nodes and edges are created when absent, a
    repeated edge gains weight, the sentinels have id 1, and the paths of a
    search and the scores are scripted. *)
Record memGraph : Type := mkMemGraph {
  mOrder : Z;
  mInfo : gmap string string;
  mTokens : gmap string Z;
  mNodes : gmap (list Z) Z;
  mEdges : gmap (Z * Z) (bool * Z);
  mWalks : direction -> list (list Z);
  mWords : gmap Z (string * bool);
  mScore : list Z -> Q
}.

Definition memGetOrCreateToken (g : memGraph) (text : string) : memGraph * Z :=
  match g.(mTokens) !! text with
  | Some id => (g, id)
  | None =>
    let id := Z.of_nat (size g.(mTokens)) + 2 in
    (mkMemGraph g.(mOrder) g.(mInfo) (<[text := id]> g.(mTokens)) g.(mNodes)
       g.(mEdges) g.(mWalks) g.(mWords) g.(mScore), id)
  end.

Definition memGetOrCreateNode (g : memGraph) (ids : list Z) : memGraph * Z :=
  match g.(mNodes) !! ids with
  | Some id => (g, id)
  | None =>
    let id := Z.of_nat (size g.(mNodes)) + 2 in
    (mkMemGraph g.(mOrder) g.(mInfo) g.(mTokens) (<[ids := id]> g.(mNodes))
       g.(mEdges) g.(mWalks) g.(mWords) g.(mScore), id)
  end.

Definition memAddEdge (g : memGraph) (p n : Z) (space : bool) : memGraph :=
  let e := match g.(mEdges) !! (p, n) with
           | Some (s, weight) => (s, weight + 1)
           | None => (space, 1)
           end in
  mkMemGraph g.(mOrder) g.(mInfo) g.(mTokens) g.(mNodes)
    (<[(p, n) := e]> g.(mEdges)) g.(mWalks) g.(mWords) g.(mScore).

Definition memPick (r : nat) (ids : list Z) : Z :=
  nth (r mod length ids) ids 0.

(** Words and single spaces, in order. *)
Fixpoint splitWords (s : string) (word : string) : list string :=
  let flush := if String.eqb word "" then [] else [word] in
  match s with
  | EmptyString => flush
  | String c s' =>
    if Ascii.eqb c " " then flush ++ " "%string :: splitWords s' ""
    else splitWords s' (String.append word (String c ""))
  end.

Definition memCollaborators (disk : gmap string memGraph)
  : Collaborators memGraph :=
  {| openGraph path :=
       match disk !! path with
       | Some g => Val g
       | None => Err "no such brain"%string
       end;
     GetInfoString g key :=
       match g.(mInfo) !! key with
       | Some v => Val v
       | None => Err "no such key"%string
       end;
     getOrder := mOrder;
     endTokenID _ := 1;
     endContextID _ := 1;
     GetOrCreateToken := memGetOrCreateToken;
     GetOrCreateNode := memGetOrCreateNode;
     addEdge := memAddEdge;
     filterPivots g tokens := omap (fun t => g.(mTokens) !! t) tokens;
     getTokensByStem _ _ := [];
     getRandomToken g r := memPick r (map snd (map_to_list g.(mTokens)));
     getRandomNodeWithToken g r t :=
       memPick r (map snd (filter (fun n : list Z * Z => t ∈ n.1)
                            (map_to_list g.(mNodes))));
     search g _ _ _ dir j := g.(mWalks) dir !! j;
     getTextByEdge g e :=
       match g.(mWords) !! e with
       | Some (word, space) => (word, space, None)
       | None => (""%string, false, Some "no such edge"%string)
       end;
     Split _ text := splitWords text "";
     Score g r := g.(mScore) r.(edges) |}.

(** A new store of the given order and tokenizer name; the node of the
    end-of-context sentinels is node 1. *)
Definition memNew (order : Z) (tokenizerName : string) : memGraph :=
  mkMemGraph order
    (<["version"%string := "2"%string]>
       (<["tokenizer"%string := tokenizerName]> ∅))
    ∅ (<[replicate (Z.to_nat order) 1 := 1]> ∅) ∅ (fun _ => []) ∅ (fun _ => 0%Q).

Definition memDisk : gmap string memGraph :=
  <["cobe.brain"%string := memNew 3 "cobe"]>
    (<["other.brain"%string := memNew 3 "none"]> ∅).

(** A store with the one word [a], whose every search finds the reverse
    paths [[10]] and [[12]] and the forward paths [[11]] and [[13]]. *)
Definition memTalk (score : list Z -> Q) : memGraph :=
  mkMemGraph 1 ∅ (<["a"%string := 2]> ∅) (<[[2] := 2]> (<[[1] := 1]> ∅)) ∅
    (fun dir => match dir with
                | Reverse => [[10]; [12]]
                | Forward => [[11]; [13]]
                end)
    (<[10 := ("a"%string, true)]> (<[11 := ("b"%string, false)]>
       (<[12 := ("c"%string, true)]> (<[13 := ("d"%string, false)]> ∅))))
    score.

(** ** Specification-side definitions *)

(** The compaction of [toEdges] by recursion on the input: an entry is
    kept, and a space sentinel directly after a kept entry is dropped and
    recorded with the number of entries kept so far. *)
Fixpoint compactFrom (ids : list tokenID) (kept : Z) : list tokenID * list Z :=
  match ids with
  | [] => ([], [])
  | t :: rest =>
    match rest with
    | s :: rest' =>
      if s =? spaceTokenID
      then let r := compactFrom rest' (kept + 1) in (t :: r.1, (kept + 1) :: r.2)
      else let r := compactFrom rest (kept + 1) in (t :: r.1, r.2)
    | [] => ([t], [])
    end
  end.

(** The stream with the space sentinels that follow a token removed, in
    the words of the description of [toEdges]: a space sentinel directly
    after an entry that stays is removed; every other entry stays
    ([afterKept]: the entry before stays). *)
Fixpoint dropFollowingSpaces (afterKept : bool) (ids : list tokenID)
  : list tokenID :=
  match ids with
  | [] => []
  | x :: rest =>
    if (x =? spaceTokenID) && afterKept then dropFollowingSpaces false rest
    else x :: dropFollowingSpaces true rest
  end.

(** [chained p es]: the first edge starts at node [p] and every edge starts
    at the node its predecessor ends at. *)
Fixpoint chained (p : list tokenID) (es : list edge) : Prop :=
  match es with
  | [] => True
  | e :: es' => e.(prev) = p /\ chained e.(next) es'
  end.

(** Every space sentinel of the stream comes directly after an entry that
    is not one ([afterToken]: the entry before is a token). *)
Fixpoint wellSpaced (afterToken : bool) (ids : list tokenID) : bool :=
  match ids with
  | [] => true
  | x :: rest =>
    if x =? spaceTokenID then afterToken && wellSpaced false rest
    else wellSpaced true rest
  end.

(** The number of tokens before each space sentinel, counting from [kept]. *)
Fixpoint gaps (ids : list tokenID) (kept : Z) : list Z :=
  match ids with
  | [] => []
  | x :: rest =>
    if x =? spaceTokenID then kept :: gaps rest kept else gaps rest (kept + 1)
  end.

(** What the best reply is after the candidates [cs] have been considered
    in order, starting from no reply and the score -1: none when no
    candidate scored above -1, and otherwise the first of the candidates
    with the greatest score. *)
Definition selected `{Collaborators graph} (g : graph) (cs : list reply)
    (sel : selection) : Prop :=
  match sel.(bestReply) with
  | None =>
    sel.(bestScore) = (-1)%Q /\ Forall (fun c => (Score g c <= -1)%Q) cs
  | Some r =>
    exists before after,
      cs = before ++ r :: after
      /\ sel.(bestScore) = Score g r
      /\ (-1 < Score g r)%Q
      /\ Forall (fun c => (Score g c < Score g r)%Q) before
      /\ Forall (fun c => (Score g c <= Score g r)%Q) after
  end.

(** * Theorems *)

(** A bound that holds for all entries of a list, weakened by arithmetic. *)
Ltac weaken H :=
  eapply Forall_impl; [exact H|]; simpl; intros; first [lia | lra].

(** ** The compaction loop *)

Lemma compactLoop_spec fuel : forall pre ids tokens spaces,
  (length ids <= fuel)%nat ->
  compactLoop fuel (pre ++ ids) (length pre) tokens spaces
  = (tokens ++ (compactFrom ids (Z.of_nat (length tokens))).1,
     spaces ++ (compactFrom ids (Z.of_nat (length tokens))).2).
Proof.
  induction fuel as [|fuel IH]; intros pre ids tokens spaces Hfuel.
  - destruct ids; [|simpl in Hfuel; lia]. simpl. now rewrite !app_nil_r.
  - destruct ids as [|t [|s rest']]; cbn [compactLoop compactFrom].
    + rewrite app_nil_r, Nat.ltb_irrefl. simpl. now rewrite !app_nil_r.
    + rewrite length_app, nth_middle. cbn [length].
      destruct (Nat.ltb_spec (length pre) (length pre + 1)); [|lia].
      destruct (Z.ltb_spec (Z.of_nat (length pre))
                  (Z.of_nat (length pre + 1) - 1)); [lia|].
      cbn [andb].
      pose proof (IH (pre ++ [t]) [] (tokens ++ [t]) spaces) as IH'.
      rewrite app_nil_r, length_app in IH'. cbn [length] in IH'.
      rewrite IH' by lia. simpl. now rewrite !app_nil_r.
    + rewrite length_app, nth_middle. cbn [length]. cbn [length] in Hfuel.
      destruct (Nat.ltb_spec (length pre) (length pre + S (S (length rest'))));
        [|lia].
      destruct (Z.ltb_spec (Z.of_nat (length pre))
                  (Z.of_nat (length pre + S (S (length rest'))) - 1)); [|lia].
      cbn [andb].
      replace (nth (length pre + 1) (pre ++ t :: s :: rest') 0) with s.
      2:{ replace (pre ++ t :: s :: rest') with ((pre ++ [t]) ++ s :: rest')
            by now rewrite <- app_assoc.
          replace (length pre + 1)%nat with (length (pre ++ [t]))
            by (rewrite length_app; simpl; lia).
          now rewrite nth_middle. }
      rewrite length_app. cbn [length].
      replace (Z.of_nat (length tokens + 1)) with
        (Z.of_nat (length tokens) + 1) by lia.
      destruct (s =? spaceTokenID).
      * pose proof (IH (pre ++ [t; s]) rest' (tokens ++ [t])
                      (spaces ++ [Z.of_nat (length tokens) + 1])) as IH'.
        rewrite <- app_assoc, !length_app in IH'. cbn [length app] in IH'.
        rewrite IH' by lia.
        replace (Z.of_nat (length tokens + 1)) with
          (Z.of_nat (length tokens) + 1) by lia.
        cbn [fst snd]. now rewrite <- !app_assoc.
      * pose proof (IH (pre ++ [t]) (s :: rest') (tokens ++ [t]) spaces) as IH'.
        rewrite <- app_assoc, !length_app in IH'. cbn [length app] in IH'.
        rewrite IH' by lia.
        replace (Z.of_nat (length tokens + 1)) with
          (Z.of_nat (length tokens) + 1) by lia.
        cbn [fst snd]. now rewrite <- !app_assoc.
Qed.

(** The loop, run on its fuel, is the recursive compaction. *)
Lemma compact_spec ids : compact ids = compactFrom ids 0.
Proof.
  unfold compact.
  pose proof (compactLoop_spec (length ids) [] ids [] []) as Hloop.
  cbn [app length] in Hloop. rewrite Hloop by lia.
  change (Z.of_nat 0) with 0. now destruct (compactFrom ids 0).
Qed.

Lemma compactFrom_cons t s rest kept :
  compactFrom (t :: s :: rest) kept
  = if s =? spaceTokenID
    then (t :: (compactFrom rest (kept + 1)).1,
          (kept + 1) :: (compactFrom rest (kept + 1)).2)
    else (t :: (compactFrom (s :: rest) (kept + 1)).1,
          (compactFrom (s :: rest) (kept + 1)).2).
Proof. reflexivity. Qed.

(** The tokens the compaction keeps are the stream without the space
    sentinels that follow a token. *)
Lemma compactFrom_tokens n : forall ids kept,
  (length ids <= n)%nat ->
  (compactFrom ids kept).1 = dropFollowingSpaces false ids.
Proof.
  induction n as [|n IH]; intros ids kept Hlen.
  - destruct ids; [done|simpl in Hlen; lia].
  - destruct ids as [|t [|s rest]]; [done| |].
    + cbn. now rewrite andb_false_r.
    + rewrite compactFrom_cons. cbn [length] in Hlen.
      cbn [dropFollowingSpaces]. rewrite andb_false_r.
      destruct (Z.eqb_spec s spaceTokenID) as [->|Hs]; cbn [fst andb].
      * f_equal. apply IH. lia.
      * rewrite (IH (s :: rest)) by (cbn [length]; lia).
        cbn [dropFollowingSpaces].
        destruct (Z.eqb_spec s spaceTokenID); [done|]. reflexivity.
Qed.

Lemma compact_tokens ids : (compact ids).1 = dropFollowingSpaces false ids.
Proof.
  rewrite compact_spec. apply (compactFrom_tokens (length ids)). lia.
Qed.

(** ** The edge loop *)

Lemma edgeLoop_app fuel order tokens : forall i spaces pv ret,
  edgeLoop fuel order tokens i spaces pv ret
  = ret ++ edgeLoop fuel order tokens i spaces pv [].
Proof.
  induction fuel as [|fuel IH]; intros i spaces pv ret; simpl.
  - now rewrite app_nil_r.
  - destruct (Z.of_nat i <? Z.of_nat (length tokens) - order + 1).
    + destruct (takeSpace spaces (Z.of_nat i + order - 1)) as [hs sp].
      rewrite IH. rewrite (IH _ _ _ [_]). now rewrite <- app_assoc.
    + now rewrite app_nil_r.
Qed.

(** One pass of the loop, with the edges in the order they are appended. *)
Lemma edgeLoop_step fuel order tokens i spaces pv :
  edgeLoop (S fuel) order tokens i spaces pv []
  = if Z.of_nat i <? Z.of_nat (length tokens) - order + 1 then
      let nx := Go.slice tokens i (i + Z.to_nat order) in
      mkEdge pv nx (takeSpace spaces (Z.of_nat i + order - 1)).1
      :: edgeLoop fuel order tokens (i + 1)
           (takeSpace spaces (Z.of_nat i + order - 1)).2 nx []
    else [].
Proof.
  simpl. destruct (Z.of_nat i <? Z.of_nat (length tokens) - order + 1); [|done].
  destruct (takeSpace spaces (Z.of_nat i + order - 1)) as [hs sp]; simpl.
  now rewrite edgeLoop_app.
Qed.

Lemma edgeLoop_length fuel order tokens : forall i spaces pv,
  length (edgeLoop fuel order tokens i spaces pv [])
  = Nat.min fuel (Z.to_nat (Z.of_nat (length tokens) - order + 1 - Z.of_nat i)).
Proof.
  induction fuel as [|fuel IH]; intros i spaces pv; [done|].
  rewrite edgeLoop_step.
  destruct (Z.ltb_spec (Z.of_nat i) (Z.of_nat (length tokens) - order + 1)).
  - cbn [length]. rewrite IH. clear IH. lia.
  - clear IH. cbn [length]. lia.
Qed.

(** Once the loop test has failed, more passes add nothing: the fuel of
    [toEdges] runs the loop to its end. *)
Lemma edgeLoop_fuel fuel order tokens : forall i spaces pv,
  Z.of_nat (length tokens) - order + 1 - Z.of_nat i <= Z.of_nat fuel ->
  edgeLoop (S fuel) order tokens i spaces pv []
  = edgeLoop fuel order tokens i spaces pv [].
Proof.
  induction fuel as [|fuel IH]; intros i spaces pv Hfuel.
  - rewrite edgeLoop_step.
    destruct (Z.ltb_spec (Z.of_nat i) (Z.of_nat (length tokens) - order + 1));
      [lia|done].
  - rewrite edgeLoop_step, (edgeLoop_step fuel).
    destruct (Z.of_nat i <? Z.of_nat (length tokens) - order + 1); [|done].
    cbn zeta. f_equal. apply IH. lia.
Qed.

Lemma slice_length {A} (s : list A) low high :
  (low <= high)%nat -> (high <= length s)%nat ->
  length (Go.slice s low high) = (high - low)%nat.
Proof.
  intros. unfold Go.slice. rewrite length_take, length_drop. lia.
Qed.

(** Every edge a run of the loop appends has windows of [order] entries. *)
Lemma edgeLoop_windows fuel order tokens : 0 <= order -> forall i spaces pv,
  length pv = Z.to_nat order ->
  Forall (fun e => length e.(prev) = Z.to_nat order
                   /\ length e.(next) = Z.to_nat order)
         (edgeLoop fuel order tokens i spaces pv []).
Proof.
  intros Hord. induction fuel as [|fuel IH]; intros i spaces pv Hprev.
  - constructor.
  - rewrite edgeLoop_step.
    destruct (Z.ltb_spec (Z.of_nat i) (Z.of_nat (length tokens) - order + 1));
      [|constructor].
    assert (length (Go.slice tokens i (i + Z.to_nat order)) = Z.to_nat order)
      as Hnext by (rewrite slice_length; lia).
    constructor; [done|]. now apply IH.
Qed.

Lemma edgeLoop_chained fuel order tokens : forall i spaces pv,
  chained pv (edgeLoop fuel order tokens i spaces pv []).
Proof.
  induction fuel as [|fuel IH]; intros i spaces pv; [done|].
  rewrite edgeLoop_step.
  destruct (Z.of_nat i <? Z.of_nat (length tokens) - order + 1); [|done].
  split; [done|]. apply IH.
Qed.

Lemma chained_adjacent es : forall p i e1 e2,
  chained p es -> es !! i = Some e1 -> es !! S i = Some e2 ->
  e1.(next) = e2.(prev).
Proof.
  induction es as [|e es IH]; intros p i e1 e2 Hch H1 H2; [done|].
  destruct Hch as [_ Hch]. destruct i as [|i].
  - injection H1 as <-. destruct es as [|e' es']; [done|].
    injection H2 as <-. now destruct Hch.
  - eapply IH; eauto.
Qed.

(** ** [toEdges] and the capacity of [tokens] *)

Lemma capOfAppended_ge `{GoRuntime} len : (len <= Go.capOfAppended len)%nat.
Proof. destruct len; simpl; lia. Qed.

Lemma sliceTo_within `{GoRuntime} (s : list Z) high :
  0 <= high <= Z.of_nat (length s) ->
  Go.sliceTo s high = Ok (take (Z.to_nat high) s).
Proof.
  intros Hhigh. unfold Go.sliceTo.
  pose proof (capOfAppended_ge (length s)).
  destruct (Z.leb_spec 0 high); [|lia].
  destruct (Z.leb_spec high (Z.of_nat (Go.capOfAppended (length s)))); [|lia].
  simpl. replace (Z.to_nat high - length s)%nat with 0%nat by lia.
  now rewrite app_nil_r.
Qed.

Lemma sliceTo_length `{GoRuntime} (s : list Z) high p :
  Go.sliceTo s high = Ok p -> length p = Z.to_nat high.
Proof.
  unfold Go.sliceTo.
  destruct (Z.leb_spec 0 high); [|done].
  destruct (high <=? _); [|done].
  intros [= <-]. rewrite length_app, length_take, length_replicate. lia.
Qed.

(** With at least [order] compacted tokens the reslice stays within the
    length, and [toEdges] is the edge loop. *)
Lemma toEdges_within `{GoRuntime} order tokenIds :
  0 <= order <= Z.of_nat (length (compact tokenIds).1) ->
  toEdges order tokenIds
  = Ok (edgeLoop (length (compact tokenIds).1) order (compact tokenIds).1 1
          (compact tokenIds).2 (take (Z.to_nat order) (compact tokenIds).1) []).
Proof.
  intros Hord. unfold toEdges. destruct (compact tokenIds) as [tokens spaces].
  simpl in *. now rewrite sliceTo_within.
Qed.

(** C1: for order 3 and the token ids [1,1,1,2,SPACE,3,SPACE,4,SPACE,5,1,1,1],
    [toEdges] returns exactly the seven edges of [TestToEdges], in order. *)
Theorem toEdges_worked_example `{GoRuntime} :
  toEdges 3 [1; 1; 1; 2; spaceTokenID; 3; spaceTokenID; 4; spaceTokenID;
             5; 1; 1; 1]
  = Ok [mkEdge [1; 1; 1] [1; 1; 2] false;
        mkEdge [1; 1; 2] [1; 2; 3] true;
        mkEdge [1; 2; 3] [2; 3; 4] true;
        mkEdge [2; 3; 4] [3; 4; 5] true;
        mkEdge [3; 4; 5] [4; 5; 1] false;
        mkEdge [4; 5; 1] [5; 1; 1] false;
        mkEdge [5; 1; 1] [1; 1; 1] false].
Proof.
  rewrite toEdges_within; [reflexivity|].
  vm_compute. split; discriminate.
Qed.

(** C10: for every order n >= 1 and every input whose compacted stream,
    the input with the space sentinels that follow a token removed, has
    m >= n tokens, [toEdges] returns exactly m - n edges. *)
Theorem toEdges_count `{GoRuntime} (order : Z) (tokenIds : list tokenID) :
  1 <= order ->
  order <= Z.of_nat (length (dropFollowingSpaces false tokenIds)) ->
  exists es, toEdges order tokenIds = Ok es
    /\ Z.of_nat (length es)
       = Z.of_nat (length (dropFollowingSpaces false tokenIds)) - order.
Proof.
  intros Hord Hlen. rewrite <- compact_tokens in *.
  rewrite toEdges_within by lia.
  eexists; split; [reflexivity|]. rewrite edgeLoop_length. lia.
Qed.

Lemma toEdges_count_witness :
  1 <= 2
  /\ dropFollowingSpaces false [7; 8; spaceTokenID; 9] = [7; 8; 9]
  /\ 2 <= Z.of_nat (length (dropFollowingSpaces false [7; 8; spaceTokenID; 9]))
  /\ exists es, @toEdges goRuntime 2 [7; 8; spaceTokenID; 9] = Ok es
       /\ Z.of_nat (length es) = 3 - 2.
Proof.
  assert (order_ok : 1 <= 2) by lia.
  assert (long : 2 <= Z.of_nat (length (dropFollowingSpaces false
                                         [7; 8; spaceTokenID; 9])))
    by (vm_compute; discriminate).
  exact (conj order_ok (conj eq_refl (conj long
           (@toEdges_count goRuntime 2 [7; 8; spaceTokenID; 9] order_ok long)))).
Defined.

(** C8: for every order n >= 1, each edge [toEdges] produces has a [prev]
    and a [next] window of exactly n entries, and of two consecutive edges
    the first ends at the node the second starts at. *)
Theorem toEdges_contiguous `{GoRuntime} (order : Z) (tokenIds : list tokenID)
    (es : list edge) :
  1 <= order ->
  toEdges order tokenIds = Ok es ->
  Forall (fun e => Z.of_nat (length e.(prev)) = order
                   /\ Z.of_nat (length e.(next)) = order) es
  /\ forall i e1 e2,
       es !! i = Some e1 -> es !! S i = Some e2 -> e1.(next) = e2.(prev).
Proof.
  intros Hord. unfold toEdges.
  destruct (compact tokenIds) as [tokens spaces].
  destruct (Go.sliceTo tokens order) as [pv|] eqn:Hpv; [|done].
  simpl. intros [= <-]. apply sliceTo_length in Hpv. split.
  - eapply Forall_impl.
    + apply edgeLoop_windows; [lia|exact Hpv].
    + simpl. intros e [Hp Hn]. split; lia.
  - intros i e1 e2. eapply chained_adjacent, edgeLoop_chained.
Qed.

Lemma toEdges_contiguous_witness :
  let es := [mkEdge [7; 8] [8; 9] false; mkEdge [8; 9] [9; 7] true] in
  1 <= 2
  /\ @toEdges goRuntime 2 [7; 8; 9; spaceTokenID; 7] = Ok es
  /\ Forall (fun e => Z.of_nat (length e.(prev)) = 2
                      /\ Z.of_nat (length e.(next)) = 2) es
  /\ forall i e1 e2,
       es !! i = Some e1 -> es !! S i = Some e2 -> e1.(next) = e2.(prev).
Proof.
  assert (order_ok : 1 <= 2) by lia.
  assert (run : @toEdges goRuntime 2 [7; 8; 9; spaceTokenID; 7]
                = Ok [mkEdge [7; 8] [8; 9] false; mkEdge [8; 9] [9; 7] true])
    by reflexivity.
  exact (conj order_ok (conj run
           (@toEdges_contiguous goRuntime 2 [7; 8; 9; spaceTokenID; 7] _
              order_ok run))).
Defined.

(** C3, as the code has it: for every order n >= 1 and every input whose
    compacted stream has fewer than n + 1 tokens, [toEdges] produces no edge.
    It returns the empty list when n is at most the capacity of the
    compacted slice, as it is when the stream has exactly n tokens, and it
    panics with a slice bound out of range otherwise, as it does when the
    stream is empty. *)
Theorem toEdges_short `{GoRuntime} (order : Z) (tokenIds : list tokenID) :
  1 <= order ->
  Z.of_nat (length (compact tokenIds).1) < order + 1 ->
  toEdges order tokenIds
  = (if order <=? Z.of_nat (Go.capOfAppended (length (compact tokenIds).1))
     then Ok [] else Panic SliceBoundsOutOfRange)
  /\ (Z.of_nat (length (compact tokenIds).1) = order ->
      toEdges order tokenIds = Ok [])
  /\ (length (compact tokenIds).1 = 0%nat ->
      toEdges order tokenIds = Panic SliceBoundsOutOfRange).
Proof.
  intros Hord Hshort.
  assert (toEdges order tokenIds
          = if order <=? Z.of_nat (Go.capOfAppended (length (compact tokenIds).1))
            then Ok [] else Panic SliceBoundsOutOfRange) as Heq.
  { unfold toEdges. destruct (compact tokenIds) as [tokens spaces].
    cbn [fst] in *. unfold Go.sliceTo.
    destruct (Z.leb_spec 0 order); [|lia]. cbn [andb].
    destruct (order <=? Z.of_nat (Go.capOfAppended (length tokens))); [|done].
    simpl. f_equal. apply nil_length_inv. rewrite edgeLoop_length. lia. }
  split; [exact Heq|]. split.
  - intros Hlen. rewrite Heq.
    pose proof (capOfAppended_ge (length (compact tokenIds).1)).
    destruct (Z.leb_spec order
                (Z.of_nat (Go.capOfAppended (length (compact tokenIds).1))));
      [done|lia].
  - intros Hlen. rewrite Heq, Hlen. cbn [Go.capOfAppended].
    change (Z.of_nat 0) with 0.
    destruct (Z.leb_spec order 0); [lia|done].
Qed.

Lemma toEdges_short_witness :
  1 <= 4
  /\ Z.of_nat (length (compact [7; spaceTokenID; 8; 9]).1) < 4 + 1
  /\ @toEdges goRuntime 4 [7; spaceTokenID; 8; 9] = Ok []
  /\ @toEdges goRuntime 5 [7; spaceTokenID; 8; 9] = Panic SliceBoundsOutOfRange.
Proof.
  assert (order_ok : 1 <= 4) by lia.
  assert (short4 : Z.of_nat (length (compact [7; spaceTokenID; 8; 9]).1) < 4 + 1)
    by (vm_compute; reflexivity).
  assert (short5 : Z.of_nat (length (compact [7; spaceTokenID; 8; 9]).1) < 5 + 1)
    by (vm_compute; reflexivity).
  exact (conj order_ok (conj short4 (conj
    (proj1 (@toEdges_short goRuntime 4 [7; spaceTokenID; 8; 9] order_ok short4))
    (proj1 (@toEdges_short goRuntime 5 [7; spaceTokenID; 8; 9]
              ltac:(lia) short5))))).
Defined.

(** C3 as stated fails: on the empty input the reslice [tokens[0:order]] is
    beyond the capacity of the [nil] slice and [toEdges] panics. *)
Lemma toEdges_empty_panics :
  1 <= 1
  /\ Z.of_nat (length (compact []).1) < 1 + 1
  /\ @toEdges goRuntime 1 [] = Panic SliceBoundsOutOfRange.
Proof. split; [lia|]. split; reflexivity. Qed.

(** ** [toChain] *)

Lemma iter_append {A} (x : A) n : forall l,
  Nat.iter n (fun chain => chain ++ [x]) l = l ++ replicate n x.
Proof.
  induction n as [|n IH]; intros l; simpl.
  - now rewrite app_nil_r.
  - rewrite IH, <- app_assoc. f_equal.
    change (x :: replicate n x) with (replicate (S n) x).
    now rewrite replicate_S_end.
Qed.

Lemma toChain_spec `{Collaborators graph} (g : graph) order tokenIds :
  toChain g order tokenIds
  = replicate (Z.to_nat order) (endTokenID g) ++ tokenIds
    ++ replicate (Z.to_nat order) (endTokenID g).
Proof.
  unfold toChain. rewrite !iter_append. simpl. now rewrite <- app_assoc.
Qed.

(** C9: for every order n >= 1 and every token-id sequence, [toChain]
    returns a sequence of the input length plus 2n whose first n and last n
    entries are the end sentinel of the store and whose middle part is the
    input. *)
Theorem toChain_padding `{Collaborators graph} (g : graph) (order : Z)
    (tokenIds : list tokenID) :
  1 <= order ->
  let n := Z.to_nat order in
  let chain := toChain g order tokenIds in
  Z.of_nat (length chain) = Z.of_nat (length tokenIds) + 2 * order
  /\ take n chain = replicate n (endTokenID g)
  /\ take (length tokenIds) (drop n chain) = tokenIds
  /\ drop (n + length tokenIds) chain = replicate n (endTokenID g).
Proof.
  intros Hord n chain. subst chain. rewrite toChain_spec. fold n.
  assert (n = length (replicate n (endTokenID g))) as Hn
    by now rewrite length_replicate.
  repeat split.
  - rewrite !length_app, !length_replicate. lia.
  - rewrite take_app_length'; [done|exact Hn].
  - rewrite drop_app_length'; [|exact Hn]. now rewrite take_app_length.
  - rewrite app_assoc, drop_app_length'; [done|].
    rewrite length_app, <- Hn. lia.
Qed.

Lemma toChain_padding_witness :
  let chain := @toChain _ (memCollaborators memDisk) (memNew 2 "cobe") 2
                 [5; spaceTokenID; 6] in
  1 <= 2
  /\ Z.of_nat (length chain) = 3 + 2 * 2
  /\ take 2 chain = [1; 1]
  /\ take 3 (drop 2 chain) = [5; spaceTokenID; 6]
  /\ drop (2 + 3) chain = [1; 1].
Proof.
  assert (order_ok : 1 <= 2) by lia.
  exact (conj order_ok
           (@toChain_padding _ (memCollaborators memDisk) (memNew 2 "cobe") 2
              [5; spaceTokenID; 6] order_ok)).
Defined.

(** ** Space sentinels *)

(** On a stream whose sentinels each follow a token, the compaction drops
    exactly the sentinels and records how many tokens precede each. *)
Lemma compactFrom_wellSpaced n : forall ids kept,
  (length ids <= n)%nat ->
  wellSpaced false ids = true ->
  compactFrom ids kept
  = (filter (fun x => x <> spaceTokenID) ids, gaps ids kept).
Proof.
  induction n as [|n IH]; intros ids kept Hlen Hws.
  - destruct ids; [done|simpl in Hlen; lia].
  - destruct ids as [|t [|s rest']]; [done| |].
    + cbn [wellSpaced] in Hws. cbn [compactFrom gaps].
      destruct (Z.eqb_spec t spaceTokenID); [done|].
      now rewrite filter_cons_True, filter_nil.
    + rewrite compactFrom_cons. cbn [length] in Hlen.
      change (wellSpaced false (t :: s :: rest'))
        with (if t =? spaceTokenID then false && wellSpaced false (s :: rest')
              else wellSpaced true (s :: rest')) in Hws.
      change (gaps (t :: s :: rest') kept)
        with (if t =? spaceTokenID then kept :: gaps (s :: rest') kept
              else gaps (s :: rest') (kept + 1)).
      destruct (Z.eqb_spec t spaceTokenID) as [|Ht]; [done|].
      rewrite (filter_cons_True _ t) by done.
      change (wellSpaced true (s :: rest'))
        with (if s =? spaceTokenID then true && wellSpaced false rest'
              else wellSpaced true rest') in Hws.
      destruct (Z.eqb_spec s spaceTokenID) as [Hs|Hs].
      * cbn [andb] in Hws. rewrite IH by (done || lia). cbn [fst snd gaps].
        destruct (Z.eqb_spec s spaceTokenID); [|done].
        now rewrite (filter_cons_False _ s) by (intros Hne; now apply Hne).
      * rewrite (IH (s :: rest')); [done|cbn [length]; lia|].
        cbn [wellSpaced]. destruct (Z.eqb_spec s spaceTokenID); done.
Qed.

Lemma gaps_sorted ids : forall afterToken kept,
  wellSpaced afterToken ids = true ->
  StronglySorted Z.lt (gaps ids kept)
  /\ Forall (fun s => (if afterToken then kept else kept + 1) <= s)
            (gaps ids kept).
Proof.
  induction ids as [|x rest IH]; intros afterToken kept Hws.
  - split; constructor.
  - cbn [wellSpaced gaps] in *. destruct (x =? spaceTokenID).
    + apply andb_true_iff in Hws as [-> Hws].
      destruct (IH false kept Hws) as [Hsorted Hge]. split.
      * constructor; [done|]. weaken Hge.
      * constructor; [lia|]. weaken Hge.
    + destruct (IH true (kept + 1) Hws) as [Hsorted Hge]. split; [done|].
      eapply Forall_impl; [exact Hge|]. simpl. destruct afterToken; intros; lia.
Qed.

(** The windows of the edges are made of entries of [tokens]. *)
Lemma edgeLoop_entries (P : tokenID -> Prop) fuel order tokens :
  Forall P tokens -> forall i spaces pv,
  Forall P pv ->
  Forall (fun e => Forall P e.(prev) /\ Forall P e.(next))
         (edgeLoop fuel order tokens i spaces pv []).
Proof.
  intros Htokens. induction fuel as [|fuel IH]; intros i spaces pv Hpv.
  - constructor.
  - rewrite edgeLoop_step.
    destruct (Z.of_nat i <? Z.of_nat (length tokens) - order + 1);
      [|constructor].
    assert (Forall P (Go.slice tokens i (i + Z.to_nat order))) as Hnext
      by now apply Forall_take, Forall_drop.
    constructor; [done|]. now apply IH.
Qed.

(** With the recorded positions increasing and none of them behind the
    loop, edge [k] of the loop is flagged exactly when the position of the
    last entry of its [next] window is recorded. *)
Lemma edgeLoop_flags fuel order tokens : forall i spaces pv k e,
  StronglySorted Z.lt spaces ->
  Forall (fun s => Z.of_nat i + order - 1 <= s) spaces ->
  edgeLoop fuel order tokens i spaces pv [] !! k = Some e ->
  e.(hasSpace) = true <-> Z.of_nat (i + k) + order - 1 ∈ spaces.
Proof.
  induction fuel as [|fuel IH]; intros i spaces pv k e Hsorted Hge; [done|].
  rewrite edgeLoop_step.
  destruct (Z.of_nat i <? Z.of_nat (length tokens) - order + 1); [|done].
  cbn zeta. set (last := Z.of_nat i + order - 1) in *.
  assert (StronglySorted Z.lt (takeSpace spaces last).2
          /\ Forall (fun s => Z.of_nat (i + 1) + order - 1 <= s)
                    (takeSpace spaces last).2
          /\ ((takeSpace spaces last).1 = true <-> last ∈ spaces)
          /\ forall y, last < y -> y ∈ (takeSpace spaces last).2 <-> y ∈ spaces)
    as (Hsorted' & Hge' & Hhead & Hrest).
  { destruct spaces as [|s rest]; cbn [takeSpace].
    - cbn. repeat split; try done. intros Hin. now apply elem_of_nil in Hin.
    - apply StronglySorted_inv in Hsorted as [Hsorted Hlt].
      apply Forall_cons in Hge as [Hs Hge].
      destruct (Z.eqb_spec s last) as [->|Hne]; cbn [fst snd].
      + repeat split; try done.
        * weaken Hlt.
        * intros _. apply elem_of_cons. now left.
        * intros Hin. apply elem_of_cons. now right.
        * intros [Heq|Hin]%elem_of_cons; [lia|done].
      + repeat split; try done.
        * now constructor.
        * constructor; [lia|]. weaken Hlt.
        * intros [Heq|Hin]%elem_of_cons; [lia|].
          rewrite Forall_forall in Hlt. specialize (Hlt _ Hin). lia. }
  destruct k as [|k]; cbn [lookup list_lookup].
  - intros [= <-]. cbn [hasSpace]. rewrite Nat.add_0_r. exact Hhead.
  - intros Hk. rewrite (IH _ _ _ _ _ Hsorted' Hge' Hk).
    replace (Z.of_nat (i + 1 + k)) with (Z.of_nat (i + S k)) by lia.
    apply Hrest. lia.
Qed.

(** X25: on an input in which every space sentinel
    directly follows an entry that is not one, the compaction removes
    exactly the sentinels, so that no sentinel is an entry of a [prev] or
    [next] window; and when no sentinel comes before the n-th token, edge
    [k] has [hasSpace] set exactly when a sentinel stands between the last
    token of its [prev] and the last token of its [next]. *)
Theorem toEdges_single_spaces `{GoRuntime} (order : Z) (tokenIds : list tokenID)
    (es : list edge) :
  1 <= order ->
  wellSpaced false tokenIds = true ->
  toEdges order tokenIds = Ok es ->
  (compact tokenIds).1 = filter (fun x => x <> spaceTokenID) tokenIds
  /\ Forall (fun e => Forall (fun x => x <> spaceTokenID) e.(prev)
                      /\ Forall (fun x => x <> spaceTokenID) e.(next)) es
  /\ (Forall (fun s => order <= s) (gaps tokenIds 0) ->
      forall k e, es !! k = Some e ->
        e.(hasSpace) = true <-> Z.of_nat k + order ∈ gaps tokenIds 0).
Proof.
  intros Hord Hws. unfold toEdges. rewrite compact_spec.
  rewrite (compactFrom_wellSpaced (length tokenIds)) by done.
  cbn [fst]. unfold Go.sliceTo.
  destruct ((0 <=? order) && _); [|done]. simpl. intros [= <-].
  split; [done|]. split.
  - apply edgeLoop_entries.
    + apply Forall_forall. now intros x [Hx _]%list_elem_of_filter.
    + apply Forall_app. split.
      * apply Forall_take, Forall_forall.
        now intros x [Hx _]%list_elem_of_filter.
      * now apply Forall_replicate.
  - intros Hfirst k e Hk.
    destruct (gaps_sorted tokenIds false 0 Hws) as [Hsorted _].
    eapply edgeLoop_flags in Hk; [|exact Hsorted|].
    + rewrite Hk. now replace (Z.of_nat (1 + k) + order - 1)
        with (Z.of_nat k + order) by lia.
    + weaken Hfirst.
Qed.

Lemma toEdges_single_spaces_witness :
  let ids := [7; 8; 9; spaceTokenID; 7] in
  let es := [mkEdge [7; 8] [8; 9] false; mkEdge [8; 9] [9; 7] true] in
  1 <= 2
  /\ wellSpaced false ids = true
  /\ @toEdges goRuntime 2 ids = Ok es
  /\ (compact ids).1 = filter (fun x => x <> spaceTokenID) ids
  /\ Forall (fun e => Forall (fun x => x <> spaceTokenID) e.(prev)
                      /\ Forall (fun x => x <> spaceTokenID) e.(next)) es
  /\ (Forall (fun s => 2 <= s) (gaps ids 0) ->
      forall k e, es !! k = Some e ->
        e.(hasSpace) = true <-> Z.of_nat k + 2 ∈ gaps ids 0).
Proof.
  assert (order_ok : 1 <= 2) by lia.
  assert (spaced : wellSpaced false [7; 8; 9; spaceTokenID; 7] = true)
    by reflexivity.
  assert (run : @toEdges goRuntime 2 [7; 8; 9; spaceTokenID; 7]
                = Ok [mkEdge [7; 8] [8; 9] false; mkEdge [8; 9] [9; 7] true])
    by reflexivity.
  exact (conj order_ok (conj spaced (conj run
           (@toEdges_single_spaces goRuntime 2 [7; 8; 9; spaceTokenID; 7] _
              order_ok spaced run)))).
Defined.

(** Of two consecutive sentinels between the tokens 1 and 2 only the first
    is dropped; the second is kept as an entry and becomes the [next]
    window of one edge and the [prev] window of the following one. *)
Lemma toEdges_double_space :
  @toEdges goRuntime 1 [1; spaceTokenID; spaceTokenID; 2]
  = Ok [mkEdge [1] [spaceTokenID] true; mkEdge [spaceTokenID] [2] false].
Proof. reflexivity. Qed.

(** ** Constructor *)

(** The two names are recognized in any case of their letters. *)
Example getTokenizer_names :
  getTokenizer "Cobe" = Some cobeTokenizer
  /\ getTokenizer "MegaHAL" = Some megaHALTokenizer
  /\ getTokenizer "" = None.
Proof. repeat split. Qed.

(** An unsupported version is refused. *)
Lemma OpenBrain_version `{Collaborators graph} path g version :
  openGraph path = Val g ->
  GetInfoString g "version" = Val version ->
  version <> "2"%string ->
  OpenBrain path
  = Err (String.append "cannot read version " (String.append version " brain")).
Proof.
  intros Hopen Hversion Hne. unfold OpenBrain. rewrite Hopen, Hversion.
  destruct (String.eqb_spec version "2"); [done|reflexivity].
Qed.

(** A store that cannot be opened, or that lacks one of the two keys, is
    refused, and nothing else is. *)
Lemma OpenBrain_succeeds `{Collaborators graph} path b :
  OpenBrain path = Val b <->
  exists name,
    openGraph path = Val b.(graphOf)
    /\ GetInfoString b.(graphOf) "version" = Val "2"%string
    /\ GetInfoString b.(graphOf) "tokenizer" = Val name
    /\ b.(tok) = getTokenizer name.
Proof.
  unfold OpenBrain. split.
  - destruct (openGraph path) as [g|]; [|done].
    destruct (GetInfoString g "version") as [version|] eqn:Hversion; [|done].
    destruct (String.eqb_spec version "2") as [->|]; [|done]. cbn [negb].
    destruct (GetInfoString g "tokenizer") as [name|] eqn:Hname; [|done].
    intros [= <-]. now exists name.
  - intros (name & -> & -> & -> & Htok). cbn. rewrite <- Htok. now destruct b.
Qed.

(** C7, what the code does with a tokenizer name it does not recognize: a
    store of version 2 whose tokenizer name is neither [cobe] nor [megahal]
    is opened without an error, into a brain whose tokenizer is [nil]. *)
Theorem OpenBrain_unrecognized_tokenizer `{Collaborators graph} (path : string)
    (g : graph) (name : string) :
  openGraph path = Val g ->
  GetInfoString g "version" = Val "2"%string ->
  GetInfoString g "tokenizer" = Val name ->
  getTokenizer name = None ->
  OpenBrain path = Val (mkBrain g None).
Proof.
  intros Hopen Hversion Hname Hnil. unfold OpenBrain.
  rewrite Hopen, Hversion. cbn. now rewrite Hname, Hnil.
Qed.

Lemma OpenBrain_unrecognized_tokenizer_witness :
  @openGraph _ (memCollaborators memDisk) "other.brain" = Val (memNew 3 "none")
  /\ @GetInfoString _ (memCollaborators memDisk) (memNew 3 "none") "version"
     = Val "2"%string
  /\ @GetInfoString _ (memCollaborators memDisk) (memNew 3 "none") "tokenizer"
     = Val "none"%string
  /\ getTokenizer "none" = None
  /\ @OpenBrain _ (memCollaborators memDisk) "other.brain"
     = Val (mkBrain (memNew 3 "none") None).
Proof.
  assert (opened : @openGraph _ (memCollaborators memDisk) "other.brain"
                   = Val (memNew 3 "none")) by (vm_compute; reflexivity).
  assert (version : @GetInfoString _ (memCollaborators memDisk)
                      (memNew 3 "none") "version" = Val "2"%string)
    by (vm_compute; reflexivity).
  assert (name : @GetInfoString _ (memCollaborators memDisk)
                   (memNew 3 "none") "tokenizer" = Val "none"%string)
    by (vm_compute; reflexivity).
  assert (unknown : getTokenizer "none" = None) by reflexivity.
  exact (conj opened (conj version (conj name (conj unknown
           (@OpenBrain_unrecognized_tokenizer _ (memCollaborators memDisk)
              "other.brain" _ _ opened version name unknown))))).
Defined.

(** ** Learner *)

Lemma countGoodTokens_spec tokens :
  countGoodTokens tokens
  = Z.of_nat (length (filter (fun t => t <> " "%string) tokens)).
Proof.
  unfold countGoodTokens.
  assert (forall n, foldl (fun count token =>
                             if String.eqb token " " then count else count + 1)
                          n tokens
                    = n + Z.of_nat (length (filter (fun t => t <> " "%string)
                                              tokens))) as Hgen.
  { induction tokens as [|t tokens IH]; intros n; cbn [foldl].
    - rewrite filter_nil. cbn [length]. lia.
    - rewrite IH. destruct (String.eqb_spec t " ") as [->|Hne].
      + rewrite filter_cons_False by (intros Hne; now apply Hne). lia.
      + rewrite filter_cons_True by done. cbn [length]. lia. }
  now rewrite Hgen.
Qed.

(** C6: [Learn] on an input whose number of tokens other than the space
    marker is at most the order of the store leaves the store as it was:
    no token, node or edge is created and no weight changes. *)
Theorem Learn_short_input `{GoRuntime} `{Collaborators graph} (b : Brain graph)
    (t : tokenizer) (text : string) :
  b.(tok) = Some t ->
  Z.of_nat (length (filter (fun w => w <> " "%string) (Split t text)))
    <= getOrder b.(graphOf) ->
  Learn b text = Ok b.(graphOf).
Proof.
  intros Htok Hshort. unfold Learn. rewrite Htok, countGoodTokens_spec.
  destruct (Z.leb_spec
              (Z.of_nat (length (filter (fun w => w <> " "%string) (Split t text))))
              (getOrder b.(graphOf))); [done|lia].
Qed.

Lemma Learn_short_input_witness :
  let b := mkBrain (memNew 3 "cobe") (Some cobeTokenizer) in
  b.(tok) = Some cobeTokenizer
  /\ Z.of_nat (length (filter (fun w => w <> " "%string)
                         (@Split _ (memCollaborators memDisk) cobeTokenizer
                            "cobe cobe cobe"))) <= 3
  /\ @Learn goRuntime _ (memCollaborators memDisk) b "cobe cobe cobe"
     = Ok (memNew 3 "cobe").
Proof.
  assert (short : Z.of_nat (length (filter (fun w => w <> " "%string)
                    (@Split _ (memCollaborators memDisk) cobeTokenizer
                       "cobe cobe cobe"))) <= 3)
    by (vm_compute; discriminate).
  exact (conj eq_refl (conj short
           (@Learn_short_input goRuntime _ (memCollaborators memDisk)
              (mkBrain (memNew 3 "cobe") (Some cobeTokenizer)) cobeTokenizer
              "cobe cobe cobe" eq_refl short))).
Defined.

(** With one token more than the order, [Learn] does change the store: at
    order 1, [a b] makes two tokens, two nodes beside the end node, and the
    three edges end-a, a-b (with a space) and b-end. *)
Example Learn_two_words :
  match @Learn goRuntime _ (memCollaborators memDisk)
          (mkBrain (memNew 1 "cobe") (Some cobeTokenizer)) "a b" with
  | Ok g => (size g.(mTokens), size g.(mNodes), map_to_list g.(mEdges))
  | Panic _ => (0%nat, 0%nat, [])
  end
  = (2%nat, 3%nat, [(1, 3, (false, 1)); (3, 4, (true, 1)); (4, 1, (false, 1))]).
Proof. vm_compute. reflexivity. Qed.

(** ** Reply: joining the two paths *)

Lemma join_spec rev fwd : join rev fwd = reverse rev ++ fwd.
Proof.
  unfold join. f_equal. induction rev as [|e rev IH]; [done|].
  cbn [foldr]. now rewrite IH, reverse_cons.
Qed.

(** The reverse path [e3, e2, e1] and the forward path [e4, e5]. *)
Example join_paths : join [3; 2; 1] [4; 5] = [1; 2; 3; 4; 5].
Proof. reflexivity. Qed.

(** ** Reply: pivot candidates *)

Section ReplyFacts.

Context `{GoRuntime} `{Collaborators graph}.
Variable rnd : nat -> nat.
Variable g : graph.

Lemma conflateStems_none tokens :
  (forall w, getTokensByStem g w = []) -> conflateStems g tokens = [].
Proof.
  intros Hstem. unfold conflateStems.
  assert (forall acc, foldl (fun ret token => ret ++ getTokensByStem g token)
                        acc tokens = acc) as Hgen.
  { induction tokens as [|w tokens IH]; intros acc; [done|].
    cbn [foldl]. now rewrite Hstem, app_nil_r. }
  apply Hgen.
Qed.

Lemma uniqueIds_nil n : uniqueIds rnd [] n = Ok ([], S n).
Proof.
  unfold uniqueIds, bindM, draw, retM. cbn [foldl].
  rewrite map_to_list_empty. cbn [map].
  now rewrite (Permutation_nil (Permutation_sym
                 (rangeOrder_perm Z (rnd n) []))).
Qed.

Lemma babbleLoop_invalid passes : forall tokenIds n,
  (forall r, getRandomToken g r <= 0) ->
  babbleLoop rnd g passes tokenIds n = Ok (tokenIds, (passes + n)%nat).
Proof.
  induction passes as [|passes IH]; intros tokenIds n Hinvalid; [done|].
  cbn [babbleLoop]. unfold bindM, draw.
  destruct (Z.ltb_spec 0 (getRandomToken g (rnd n)));
    [specialize (Hinvalid (rnd n)); lia|].
  rewrite IH by done. do 2 f_equal. lia.
Qed.

Lemma babbleLoop_valid passes : forall tokenIds n,
  (forall r, 0 < getRandomToken g r) ->
  exists more,
    babbleLoop rnd g passes tokenIds n = Ok (tokenIds ++ more, (passes + n)%nat)
    /\ length more = passes.
Proof.
  induction passes as [|passes IH]; intros tokenIds n Hvalid.
  - exists []. now rewrite app_nil_r.
  - cbn [babbleLoop]. unfold bindM, draw.
    destruct (Z.ltb_spec 0 (getRandomToken g (rnd n)));
      [|specialize (Hvalid (rnd n)); lia].
    destruct (IH (tokenIds ++ [getRandomToken g (rnd n)]) (S n) Hvalid)
      as (more & -> & Hmore).
    exists (getRandomToken g (rnd n) :: more). rewrite <- app_assoc.
    split; [do 2 f_equal; lia|]. cbn [length]. now rewrite Hmore.
Qed.

(** With a vocabulary, so that every random token is valid, there is
    always a pivot candidate. *)
Lemma pivotCandidates_nonempty tokens n :
  (forall r, 0 < getRandomToken g r) ->
  exists x tokenIds n', pivotCandidates rnd g tokens n = Ok (x :: tokenIds, n').
Proof.
  intros Hvalid. unfold pivotCandidates, bindM.
  unfold unique at 1, uniqueIds at 1, bindM, draw, retM.
  match goal with
  | |- context [rangeOrder (rnd (S n)) ?keys] =>
    destruct (rangeOrder (rnd (S n)) keys) as [|x tokenIds]
  end.
  - cbn [length Nat.eqb]. unfold babble.
    destruct (babbleLoop_valid 5 [] (S (S n)) Hvalid) as (more & -> & Hmore).
    destruct more as [|x more]; [done|]. now eexists _, _, _.
  - cbn [length Nat.eqb]. now eexists _, _, _.
Qed.

(** Without a candidate, the first search panics in [pickPivot]. *)
Lemma replySearch_nil n : replySearch rnd g [] n = Panic InvalidArgumentToIntn.
Proof. reflexivity. Qed.

(** With a candidate, a search is started and four draws are made. *)
Lemma replySearch_cons t tokenIds n :
  exists it, replySearch rnd g (t :: tokenIds) n = Ok (it, (4 + n)%nat).
Proof.
  unfold replySearch, pickPivot, bindM, draw, liftM, retM, Go.Intn.
  destruct (Z.leb_spec (Z.of_nat (length (t :: tokenIds))) 0);
    [cbn [length] in *; lia|].
  eexists. reflexivity.
Qed.

End ReplyFacts.

(** C4, what the code does without a pivot candidate: when no token of the
    input is an eligible pivot or shares a stem with a known token, and the
    vocabulary is empty so that every random token is invalid, [Reply]
    panics in [pickPivot], whatever the text. *)
Theorem Reply_without_candidates `{GoRuntime} `{Collaborators graph}
    (rnd : nat -> nat) (ticks : nat) (b : Brain graph) (t : tokenizer)
    (text : string) :
  b.(tok) = Some t ->
  (forall tokens, filterPivots b.(graphOf) tokens = []) ->
  (forall w, getTokensByStem b.(graphOf) w = []) ->
  (forall r, getRandomToken b.(graphOf) r <= 0) ->
  Reply rnd ticks b text = Panic InvalidArgumentToIntn.
Proof.
  intros Htok Hpivots Hstems Hvocabulary. unfold Reply. rewrite Htok.
  unfold replyM, pivotCandidates.
  unfold bindM at 1 2. unfold unique at 1. unfold bindM at 1, draw at 1, retM at 1.
  rewrite Hpivots, conflateStems_none by done. cbn [app].
  unfold bindM at 1. rewrite uniqueIds_nil. cbn [length Nat.eqb].
  unfold babble. rewrite babbleLoop_invalid by done.
  unfold bindM. now rewrite replySearch_nil.
Qed.

Lemma memNew_no_pivots order name tokens :
  @filterPivots _ (memCollaborators memDisk) (memNew order name) tokens = [].
Proof.
  cbn. induction tokens as [|w tokens IH]; [done|].
  cbn [omap list_omap]. now rewrite lookup_empty.
Qed.

Lemma memNew_no_tokens order name r :
  @getRandomToken _ (memCollaborators memDisk) (memNew order name) r <= 0.
Proof.
  cbn. rewrite map_to_list_empty. unfold memPick. cbn [map length].
  now destruct (r mod 0)%nat.
Qed.

Lemma Reply_without_candidates_witness :
  let b := mkBrain (memNew 3 "cobe") (Some cobeTokenizer) in
  b.(tok) = Some cobeTokenizer
  /\ (forall tokens,
        @filterPivots _ (memCollaborators memDisk) b.(graphOf) tokens = [])
  /\ (forall w,
        @getTokensByStem _ (memCollaborators memDisk) b.(graphOf) w = [])
  /\ (forall r,
        @getRandomToken _ (memCollaborators memDisk) b.(graphOf) r <= 0)
  /\ @Reply goRuntime _ (memCollaborators memDisk) (fun n => n) 3 b "hello"
     = Panic InvalidArgumentToIntn.
Proof.
  exact (conj eq_refl
          (conj (memNew_no_pivots 3 "cobe")
            (conj (fun w => eq_refl)
              (conj (memNew_no_tokens 3 "cobe")
                (@Reply_without_candidates goRuntime _
                   (memCollaborators memDisk) (fun n => n) 3
                   (mkBrain (memNew 3 "cobe") (Some cobeTokenizer))
                   cobeTokenizer "hello" eq_refl
                   (memNew_no_pivots 3 "cobe") (fun w => eq_refl)
                   (memNew_no_tokens 3 "cobe")))))).
Defined.

(** ** Reply: selection *)

Section Selection.

Context `{GoRuntime} `{Collaborators graph}.
Variable rnd : nat -> nat.
Variable g : graph.

(** The comparison of [consider]: a candidate replaces the best one when
    its score is strictly greater, and only then. *)
Lemma consider_best sel r :
  ((sel.(bestScore) < Score g r)%Q ->
   (consider g sel r).(bestReply) = Some r
   /\ (consider g sel r).(bestScore) = Score g r)
  /\ ((Score g r <= sel.(bestScore))%Q ->
      (consider g sel r).(bestReply) = sel.(bestReply)
      /\ (consider g sel r).(bestScore) = sel.(bestScore)).
Proof.
  unfold consider.
  destruct (Qle_bool (Score g r) sel.(bestScore)) eqn:Hle; cbn.
  - apply Qle_bool_iff in Hle. split; [intros; lra|done].
  - split; [done|]. intros Hle'. apply Qle_bool_iff in Hle'. congruence.
Qed.

Lemma selected_consider cs sel c :
  selected g cs sel -> selected g (cs ++ [c]) (consider g sel c).
Proof.
  unfold selected. intros Hsel.
  destruct (consider_best sel c) as [Hgt Hle].
  destruct (Qlt_le_dec sel.(bestScore) (Score g c)) as [Hc|Hc].
  - destruct (Hgt Hc) as [-> ->]. exists cs, []. split; [done|]. split; [done|].
    destruct sel.(bestReply) as [r|].
    + destruct Hsel as (before & after & -> & Hscore & Hr & Hbefore & Hafter).
      rewrite Hscore in Hc. split; [lra|]. split; [|constructor].
      apply Forall_app. split; [|constructor].
      * weaken Hbefore.
      * lra.
      * weaken Hafter.
    + destruct Hsel as [Hscore Hall]. rewrite Hscore in Hc.
      split; [lra|]. split; [|constructor].
      weaken Hall.
  - destruct (Hle Hc) as [-> ->]. destruct sel.(bestReply) as [r|].
    + destruct Hsel as (before & after & -> & Hscore & Hr & Hbefore & Hafter).
      exists before, (after ++ [c]). rewrite <- app_assoc. split; [done|].
      split; [done|]. split; [done|]. split; [done|].
      apply Forall_app. split; [done|]. constructor; [|constructor].
      now rewrite <- Hscore.
    + destruct Hsel as [Hscore Hall]. split; [done|].
      apply Forall_app. split; [done|]. constructor; [|constructor].
      now rewrite <- Hscore.
Qed.

Lemma selected_foldl cs : forall done sel,
  selected g done sel -> selected g (done ++ cs) (foldl (consider g) sel cs).
Proof.
  induction cs as [|c cs IH]; intros done sel Hsel; cbn [foldl].
  - now rewrite app_nil_r.
  - replace (done ++ c :: cs) with ((done ++ [c]) ++ cs)
      by now rewrite <- app_assoc.
    apply IH. now apply selected_consider.
Qed.

(** The loop of [Reply] considers the candidates of [scoredLoop], in order,
    and panics when [scoredLoop] does. *)
Lemma replyLoop_scored ticks tokenIds : forall it sel n,
  replyLoop rnd g ticks tokenIds it sel n
  = match scoredLoop rnd g ticks tokenIds it n with
    | Ok (cs, n') => Ok (foldl (consider g) sel cs, n')
    | Panic p => Panic p
    end.
Proof.
  induction ticks as [|ticks IH]; intros it sel n; [done|].
  cbn [replyLoop scoredLoop]. unfold bindM.
  destruct (attempt rnd g tokenIds it n) as [[a n1]|]; [|done].
  rewrite IH. destruct (scoredLoop rnd g ticks tokenIds a.2 n1) as [[cs n2]|];
    [|done].
  unfold retM. now destruct a.1.
Qed.

(** Once a first search has started, the loop does not panic. *)
Lemma scoredLoop_runs ticks t tokenIds : forall it n,
  exists cs n', scoredLoop rnd g ticks (t :: tokenIds) it n = Ok (cs, n').
Proof.
  induction ticks as [|ticks IH]; intros it n; [now eexists _, _|].
  cbn [scoredLoop]. unfold bindM, attempt.
  destruct (nextEdges it) as [[edges|] it'].
  - unfold retM. cbn [fst snd]. destruct (IH it' n) as (cs & n' & ->).
    now eexists _, _.
  - unfold bindM. destruct (replySearch_cons rnd g t tokenIds n) as [it'' ->].
    unfold retM. cbn [fst snd]. destruct (IH it'' (4 + n)%nat) as (cs & n' & ->).
    now eexists _, _.
Qed.

End Selection.

(** A call of [Reply] that does not panic returns the text of the best
    reply left by considering the scored candidates in order. *)
Lemma Reply_scored `{GoRuntime} `{Collaborators graph} (rnd : nat -> nat)
    (ticks : nat) (b : Brain graph) (text : string) (cs : list reply) :
  scored rnd ticks b text = Ok cs ->
  Reply rnd ticks b text
  = Ok (replyOf b.(graphOf)
          (foldl (consider b.(graphOf)) (mkSelection None (-1) 0) cs)).
Proof.
  unfold scored, Reply.
  destruct b.(tok) as [t|]; [|done]. unfold scoredM, replyM, bindM.
  destruct (pivotCandidates rnd b.(graphOf) (Split t text) 0%nat)
    as [[tokenIds n]|]; [|done].
  destruct (replySearch rnd b.(graphOf) tokenIds n) as [[it n1]|]; [|done].
  rewrite replyLoop_scored.
  destruct (scoredLoop rnd b.(graphOf) ticks tokenIds it n1) as [[cs' n2]|];
    [|done].
  cbn. now intros [= <-].
Qed.

(** A call of [Reply] with a tokenizer and at least one pivot candidate
    runs to the deadline without a panic. *)
Lemma scored_runs `{GoRuntime} `{Collaborators graph} (rnd : nat -> nat)
    (ticks : nat) (b : Brain graph) t text x tokenIds n :
  b.(tok) = Some t ->
  pivotCandidates rnd b.(graphOf) (Split t text) 0%nat = Ok (x :: tokenIds, n) ->
  exists cs, scored rnd ticks b text = Ok cs.
Proof.
  intros Htok Hcandidates. unfold scored, scoredM, bindM.
  rewrite Htok, Hcandidates.
  destruct (replySearch_cons rnd b.(graphOf) x tokenIds n) as [it ->].
  destruct (scoredLoop_runs rnd b.(graphOf) ticks x tokenIds it (4 + n)%nat)
    as (cs & n' & ->).
  now exists cs.
Qed.

(** With a tokenizer and a vocabulary, [Reply] returns a string, whatever
    the text. *)
Lemma Reply_with_vocabulary `{GoRuntime} `{Collaborators graph}
    (rnd : nat -> nat) (ticks : nat) (b : Brain graph) t text :
  b.(tok) = Some t ->
  (forall r, 0 < getRandomToken b.(graphOf) r) ->
  exists out, Reply rnd ticks b text = Ok out.
Proof.
  intros Htok Hvalid.
  destruct (pivotCandidates_nonempty rnd b.(graphOf) (Split t text) 0 Hvalid)
    as (x & tokenIds & n & Hcandidates).
  destruct (scored_runs rnd ticks b t text x tokenIds n Htok Hcandidates)
    as [cs Hcs].
  rewrite (Reply_scored _ _ _ _ _ Hcs). now eexists.
Qed.

(** C5, as the code has it: the best-seen candidate is replaced only when
    the new candidate scores strictly above the best score so far, which
    starts at -1; and a call of [Reply] that does not panic returns, at the
    deadline, the "no reply" text when no candidate scored above -1 (so
    also when none was scored), and otherwise the text of the first
    candidate whose score is the greatest of all scored candidates. *)
Theorem Reply_selection `{GoRuntime} `{Collaborators graph} (rnd : nat -> nat)
    (ticks : nat) (b : Brain graph) (text : string) (cs : list reply) :
  scored rnd ticks b text = Ok cs ->
  let g := b.(graphOf) in
  (forall sel r,
     ((sel.(bestScore) < Score g r)%Q ->
      (consider g sel r).(bestReply) = Some r)
     /\ ((Score g r <= sel.(bestScore))%Q ->
         (consider g sel r).(bestReply) = sel.(bestReply)))
  /\ exists out,
       Reply rnd ticks b text = Ok out
       /\ ((Forall (fun c => (Score g c <= -1)%Q) cs
            /\ out = "no replies :  ("%string)
           \/ (exists before r after,
                 cs = before ++ r :: after
                 /\ out = ToString g r
                 /\ (-1 < Score g r)%Q
                 /\ Forall (fun c => (Score g c < Score g r)%Q) before
                 /\ Forall (fun c => (Score g c <= Score g r)%Q) after)).
Proof.
  intros Hscored g. split.
  - intros sel r. destruct (consider_best g sel r) as [Hgt Hle].
    split; intros Hcmp; [now apply Hgt|now apply Hle].
  - rewrite (Reply_scored _ _ _ _ _ Hscored). fold g.
    eexists. split; [reflexivity|].
    pose proof (selected_foldl g cs [] (mkSelection None (-1) 0)) as Hsel.
    cbn [app] in Hsel. unfold selected, replyOf in *.
    destruct (bestReply (foldl (consider g) (mkSelection None (-1) 0) cs))
      as [r|].
    + right. destruct Hsel as (before & after & -> & _ & Hr & Hbefore & Hafter).
      { cbn. split; [done|constructor]. }
      now exists before, r, after.
    + left. destruct Hsel as [_ Hall]; [|done].
      cbn. split; [done|constructor].
Qed.

Lemma Reply_selection_witness :
  let b := mkBrain (memTalk (fun _ => 1%Q)) (Some cobeTokenizer) in
  let cs := [newReply [10; 11]; newReply [12; 13]] in
  @scored goRuntime _ (memCollaborators memDisk) (fun n => n) 3 b "a" = Ok cs
  /\ @Reply goRuntime _ (memCollaborators memDisk) (fun n => n) 3 b "a"
     = Ok "a b"%string
  /\ exists out,
       @Reply goRuntime _ (memCollaborators memDisk) (fun n => n) 3 b "a"
       = Ok out
       /\ ((Forall (fun c => (1 <= -1)%Q) cs /\ out = "no replies :  ("%string)
           \/ (exists before r after,
                 cs = before ++ r :: after
                 /\ out = @ToString _ (memCollaborators memDisk)
                            (memTalk (fun _ => 1%Q)) r
                 /\ (-1 < 1)%Q
                 /\ Forall (fun c => (1 < 1)%Q) before
                 /\ Forall (fun c => (1 <= 1)%Q) after)).
Proof.
  assert (run : @scored goRuntime _ (memCollaborators memDisk) (fun n => n) 3
                  (mkBrain (memTalk (fun _ => 1%Q)) (Some cobeTokenizer)) "a"
                = Ok [newReply [10; 11]; newReply [12; 13]])
    by (vm_compute; reflexivity).
  assert (out : @Reply goRuntime _ (memCollaborators memDisk) (fun n => n) 3
                  (mkBrain (memTalk (fun _ => 1%Q)) (Some cobeTokenizer)) "a"
                = Ok "a b"%string)
    by (vm_compute; reflexivity).
  exact (conj run (conj out
           (proj2 (@Reply_selection goRuntime _ (memCollaborators memDisk)
                     (fun n => n) 3
                     (mkBrain (memTalk (fun _ => 1%Q)) (Some cobeTokenizer))
                     "a" _ run)))).
Defined.

(** C5 as stated fails: a candidate was scored, with the score -2, and
    [Reply] returns the "no reply" text, since -2 is not above -1. *)
Lemma Reply_low_score :
  let b := mkBrain (memTalk (fun _ => (-2)%Q)) (Some cobeTokenizer) in
  @scored goRuntime _ (memCollaborators memDisk) (fun n => n) 1 b "a"
  = Ok [newReply [10; 11]]
  /\ @Score _ (memCollaborators memDisk) b.(graphOf) (newReply [10; 11])
     = (-2)%Q
  /\ @Reply goRuntime _ (memCollaborators memDisk) (fun n => n) 1 b "a"
     = Ok "no replies :  ("%string.
Proof. vm_compute. repeat split. Qed.

(** * Further properties of the code *)

(** ** The compaction of [toEdges] *)

Lemma compactFrom_inv n : forall ids kept,
  (length ids <= n)%nat ->
  filter (fun x => x <> spaceTokenID) (compactFrom ids kept).1
  = filter (fun x => x <> spaceTokenID) ids
  /\ (length (compactFrom ids kept).1 + length (compactFrom ids kept).2
      = length ids)%nat
  /\ StronglySorted Z.lt (compactFrom ids kept).2
  /\ Forall (fun s => kept < s <= kept + Z.of_nat (length (compactFrom ids kept).1))
            (compactFrom ids kept).2.
Proof.
  induction n as [|n IH]; intros ids kept Hlen.
  - destruct ids; [|simpl in Hlen; lia]. cbn. repeat split; constructor.
  - destruct ids as [|t [|s rest']].
    + cbn. repeat split; constructor.
    + cbn. repeat split; constructor.
    + rewrite compactFrom_cons. cbn [length] in Hlen.
      destruct (Z.eqb_spec s spaceTokenID) as [->|Hs]; cbn [fst snd].
      * destruct (IH rest' (kept + 1) ltac:(lia)) as (Hf & Hl & Hs & Hb).
        repeat split.
        -- destruct (decide (t = spaceTokenID)) as [Ht|Ht].
           ++ rewrite !(filter_cons_False _ t) by tauto.
              now rewrite (filter_cons_False _ spaceTokenID rest') by tauto.
           ++ rewrite !(filter_cons_True _ t) by done.
              rewrite (filter_cons_False _ spaceTokenID rest') by tauto.
              now rewrite Hf.
        -- cbn [length]. lia.
        -- constructor; [done|]. weaken Hb.
        -- constructor; [cbn [length]; lia|]. cbn [length]. weaken Hb.
      * destruct (IH (s :: rest') (kept + 1) ltac:(cbn [length]; lia))
          as (Hf & Hl & Hsorted & Hb).
        repeat split.
        -- destruct (decide (t = spaceTokenID)) as [Ht|Ht].
           ++ rewrite !(filter_cons_False _ t) by tauto. exact Hf.
           ++ rewrite !(filter_cons_True _ t) by done. now rewrite Hf.
        -- cbn [length] in *. lia.
        -- done.
        -- cbn [length]. weaken Hb.
Qed.

(** X1: the first loop of [toEdges] never drops an entry that is not the
    space sentinel, and every entry of the input is either kept in
    [tokens] or recorded in [spaces]. *)
Theorem compact_keeps_tokens (tokenIds : list tokenID) :
  filter (fun x => x <> spaceTokenID) (compact tokenIds).1
  = filter (fun x => x <> spaceTokenID) tokenIds
  /\ (length (compact tokenIds).1 + length (compact tokenIds).2
      = length tokenIds)%nat.
Proof.
  rewrite compact_spec.
  destruct (compactFrom_inv (length tokenIds) tokenIds 0 ltac:(lia))
    as (Hf & Hl & _). now split.
Qed.

(** X2: the positions the first loop of [toEdges] records are strictly
    increasing and lie between 1 and the number of tokens kept. *)
Theorem compact_positions (tokenIds : list tokenID) :
  StronglySorted Z.lt (compact tokenIds).2
  /\ Forall (fun s => 1 <= s <= Z.of_nat (length (compact tokenIds).1))
            (compact tokenIds).2.
Proof.
  rewrite compact_spec.
  destruct (compactFrom_inv (length tokenIds) tokenIds 0 ltac:(lia))
    as (_ & _ & Hsorted & Hb).
  split; [done|]. weaken Hb.
Qed.

(** ** The windows of [toEdges] *)

Lemma edgeLoop_lookup fuel order tokens : forall i spaces pv k e,
  edgeLoop fuel order tokens i spaces pv [] !! k = Some e ->
  e.(prev) = match k with
             | O => pv
             | S k' => Go.slice tokens (i + k') (i + k' + Z.to_nat order)
             end
  /\ e.(next) = Go.slice tokens (i + k) (i + k + Z.to_nat order).
Proof.
  induction fuel as [|fuel IH]; intros i spaces pv k e; [done|].
  rewrite edgeLoop_step.
  destruct (Z.of_nat i <? Z.of_nat (length tokens) - order + 1); [|done].
  cbn zeta. destruct k as [|k]; cbn [lookup list_lookup].
  - intros [= <-]. cbn [prev next]. now rewrite Nat.add_0_r.
  - intros Hk. apply IH in Hk as [Hp Hn]. split.
    + rewrite Hp. destruct k as [|k]; [now rewrite Nat.add_0_r|].
      now replace (i + 1 + k)%nat with (i + S k)%nat by lia.
    + rewrite Hn. now replace (i + 1 + k)%nat with (i + S k)%nat by lia.
Qed.

(** X3: [toEdges] slides a window of [order] entries over the compacted
    stream: edge [k] goes from the tokens [k .. k+order-1] to the tokens
    [k+1 .. k+order]. *)
Theorem toEdges_sliding_window `{GoRuntime} (order : Z)
    (tokenIds : list tokenID) (es : list edge) (k : nat) (e : edge) :
  1 <= order ->
  toEdges order tokenIds = Ok es ->
  es !! k = Some e ->
  e.(prev) = Go.slice (compact tokenIds).1 k (k + Z.to_nat order)
  /\ e.(next) = Go.slice (compact tokenIds).1 (S k) (S k + Z.to_nat order).
Proof.
  intros Hord. unfold toEdges.
  destruct (compact tokenIds) as [tokens spaces]. cbn [fst].
  destruct (Go.sliceTo tokens order) as [pv|] eqn:Hpv; [|done].
  cbn. intros [= <-] Hk.
  assert (order < Z.of_nat (length tokens)) as Hlong.
  { apply lookup_lt_Some in Hk. rewrite edgeLoop_length in Hk. lia. }
  rewrite sliceTo_within in Hpv by lia. injection Hpv as <-.
  apply edgeLoop_lookup in Hk as [Hp Hn]. split; [|exact Hn].
  rewrite Hp. destruct k as [|k]; [|done].
  unfold Go.slice. now rewrite drop_0, Nat.sub_0_r.
Qed.

Lemma toEdges_sliding_window_witness :
  let e := mkEdge [8; 9] [9; 7] true in
  1 <= 2
  /\ @toEdges goRuntime 2 [7; 8; 9; spaceTokenID; 7]
     = Ok [mkEdge [7; 8] [8; 9] false; e]
  /\ [mkEdge [7; 8] [8; 9] false; e] !! 1%nat = Some e
  /\ e.(prev) = Go.slice (compact [7; 8; 9; spaceTokenID; 7]).1 1 (1 + 2)
  /\ e.(next) = Go.slice (compact [7; 8; 9; spaceTokenID; 7]).1 2 (2 + 2).
Proof.
  assert (order_ok : 1 <= 2) by lia.
  assert (run : @toEdges goRuntime 2 [7; 8; 9; spaceTokenID; 7]
                = Ok [mkEdge [7; 8] [8; 9] false; mkEdge [8; 9] [9; 7] true])
    by reflexivity.
  exact (conj order_ok (conj run (conj eq_refl
           (@toEdges_sliding_window goRuntime 2 [7; 8; 9; spaceTokenID; 7] _ 1
              _ order_ok run eq_refl)))).
Defined.

(** ** [forEdges] and [Learn]: the chain is long enough *)

Lemma filter_sentinels (x : tokenID) n :
  x <> spaceTokenID ->
  filter (fun y => y <> spaceTokenID) (replicate n x) = replicate n x.
Proof.
  intros Hx. induction n as [|n IH]; [done|].
  cbn [replicate]. now rewrite filter_cons_True, IH.
Qed.

(** The padding of [toChain] alone gives [toEdges] twice [order] tokens. *)
Lemma chain_tokens `{Collaborators graph} (g : graph) order tokenIds :
  endTokenID g <> spaceTokenID ->
  (Z.to_nat order + Z.to_nat order
   <= length (compact (toChain g order tokenIds)).1)%nat.
Proof.
  intros Hend.
  destruct (compactFrom_inv (length (toChain g order tokenIds))
              (toChain g order tokenIds) 0 ltac:(lia)) as (Hf & _).
  rewrite <- compact_spec in Hf.
  pose proof (length_filter (fun x => x <> spaceTokenID)
                (compact (toChain g order tokenIds)).1) as Hle.
  rewrite Hf in Hle. rewrite (toChain_spec g) in Hle at 1.
  rewrite !filter_app, !length_app in Hle.
  rewrite filter_sentinels, length_replicate in Hle by done. lia.
Qed.

(** X4: [forEdges] does not panic when the order of the store is not
    negative and its end token is not the space sentinel: the padded chain
    always gives [toEdges] enough tokens, and the callback is run on at
    least [order] edges. *)
Theorem forEdges_runs `{GoRuntime} `{Collaborators graph} {S : Type}
    (g : graph) (tokenIds : list tokenID)
    (f : S -> list tokenID -> list tokenID -> bool -> S) (s : S) :
  0 <= getOrder g ->
  endTokenID g <> spaceTokenID ->
  exists es,
    toEdges (getOrder g) (toChain g (getOrder g) tokenIds) = Ok es
    /\ forEdges g tokenIds f s
       = Ok (foldl (fun s e => f s e.(prev) e.(next) e.(hasSpace)) s es)
    /\ getOrder g <= Z.of_nat (length es).
Proof.
  intros Hord Hend. pose proof (chain_tokens g (getOrder g) tokenIds Hend).
  unfold forEdges. rewrite toEdges_within by lia.
  eexists. split; [reflexivity|]. split; [reflexivity|].
  rewrite edgeLoop_length. lia.
Qed.

Lemma forEdges_runs_witness :
  let g := memNew 2 "cobe" in
  0 <= @getOrder _ (memCollaborators memDisk) g
  /\ @endTokenID _ (memCollaborators memDisk) g <> spaceTokenID
  /\ exists es,
       @toEdges goRuntime 2 (@toChain _ (memCollaborators memDisk) g 2 [5]) = Ok es
       /\ @forEdges goRuntime _ (memCollaborators memDisk) _ g [5]
            (fun n _ _ _ => S n) 0%nat
          = Ok (foldl (fun n (e : edge) => S n) 0%nat es)
       /\ 2 <= Z.of_nat (length es).
Proof.
  assert (order_ok : 0 <= @getOrder _ (memCollaborators memDisk) (memNew 2 "cobe"))
    by (cbn; lia).
  assert (end_ok : @endTokenID _ (memCollaborators memDisk) (memNew 2 "cobe")
                   <> spaceTokenID) by (cbn; discriminate).
  exact (conj order_ok (conj end_ok
           (@forEdges_runs goRuntime _ (memCollaborators memDisk) _
              (memNew 2 "cobe") [5] (fun n _ _ _ => S n) 0%nat
              order_ok end_ok))).
Defined.

(** X5: [Learn] on a brain with a tokenizer does not panic, whatever the
    text, when the store it has resolved the tokens in has an order that
    is not negative and an end token that is not the space sentinel. *)
Theorem Learn_runs `{GoRuntime} `{Collaborators graph} (b : Brain graph)
    (t : tokenizer) (text : string) :
  b.(tok) = Some t ->
  0 <= getOrder (learnTokens b.(graphOf) (Split t text)).1 ->
  endTokenID (learnTokens b.(graphOf) (Split t text)).1 <> spaceTokenID ->
  exists g, Learn b text = Ok g.
Proof.
  intros Htok Hord Hend. unfold Learn. rewrite Htok.
  destruct (countGoodTokens (Split t text) <=? getOrder b.(graphOf));
    [now eexists|].
  destruct (learnTokens b.(graphOf) (Split t text)) as [g tokenIds].
  cbn [fst] in *.
  pose proof (chain_tokens g (getOrder g) tokenIds Hend).
  unfold forEdges. rewrite toEdges_within by lia. cbn. now eexists.
Qed.

Lemma Learn_runs_witness :
  let b := mkBrain (memNew 1 "cobe") (Some cobeTokenizer) in
  let g1 := (@learnTokens _ (memCollaborators memDisk) b.(graphOf)
               (@Split _ (memCollaborators memDisk) cobeTokenizer "a b")).1 in
  b.(tok) = Some cobeTokenizer
  /\ 0 <= @getOrder _ (memCollaborators memDisk) g1
  /\ @endTokenID _ (memCollaborators memDisk) g1 <> spaceTokenID
  /\ exists g, @Learn goRuntime _ (memCollaborators memDisk) b "a b" = Ok g.
Proof.
  assert (order_ok :
    0 <= @getOrder _ (memCollaborators memDisk)
           (@learnTokens _ (memCollaborators memDisk) (memNew 1 "cobe")
              (@Split _ (memCollaborators memDisk) cobeTokenizer "a b")).1)
    by (vm_compute; discriminate).
  assert (end_ok :
    @endTokenID _ (memCollaborators memDisk)
      (@learnTokens _ (memCollaborators memDisk) (memNew 1 "cobe")
         (@Split _ (memCollaborators memDisk) cobeTokenizer "a b")).1
    <> spaceTokenID) by (cbn; discriminate).
  exact (conj eq_refl (conj order_ok (conj end_ok
           (@Learn_runs goRuntime _ (memCollaborators memDisk)
              (mkBrain (memNew 1 "cobe") (Some cobeTokenizer)) cobeTokenizer
              "a b" eq_refl order_ok end_ok)))).
Defined.

(** ** The edges of a learned sentence *)

Lemma wellSpaced_sentinels (x : tokenID) n : forall afterToken,
  x <> spaceTokenID -> wellSpaced afterToken (replicate n x) = true.
Proof.
  induction n as [|n IH]; intros afterToken Hx; [done|].
  cbn [replicate wellSpaced].
  destruct (Z.eqb_spec x spaceTokenID); [done|]. now apply IH.
Qed.

Lemma wellSpaced_after_sentinels (x : tokenID) n rest : forall afterToken,
  x <> spaceTokenID ->
  wellSpaced afterToken (replicate (S n) x ++ rest) = wellSpaced true rest.
Proof.
  assert (forall b l, x <> spaceTokenID ->
                      wellSpaced b (x :: l) = wellSpaced true l) as Hstep.
  { intros b l Hx. cbn [wellSpaced]. now destruct (Z.eqb_spec x spaceTokenID). }
  induction n as [|n IH]; intros afterToken Hx.
  - apply Hstep, Hx.
  - change (replicate (S (S n)) x ++ rest)
      with (x :: (replicate (S n) x ++ rest)).
    rewrite Hstep by done. now apply IH.
Qed.

Lemma wellSpaced_before_sentinels (x : tokenID) n ids : forall afterToken,
  x <> spaceTokenID ->
  wellSpaced afterToken (ids ++ replicate n x) = wellSpaced afterToken ids.
Proof.
  induction ids as [|y ids IH]; intros afterToken Hx.
  - cbn [app wellSpaced]. now apply wellSpaced_sentinels.
  - cbn [app wellSpaced]. destruct (y =? spaceTokenID); now rewrite IH.
Qed.

Lemma wellSpaced_chain `{Collaborators graph} (g : graph) order tokenIds :
  1 <= order ->
  endTokenID g <> spaceTokenID ->
  wellSpaced true tokenIds = true ->
  wellSpaced false (toChain g order tokenIds) = true.
Proof.
  intros Hord Hend Hids. rewrite toChain_spec.
  destruct (Z.to_nat order) as [|n] eqn:Hn; [lia|].
  rewrite wellSpaced_after_sentinels by done.
  now rewrite wellSpaced_before_sentinels.
Qed.

(** X6: for the chain of a sentence whose space markers each follow a token
    or the opening padding, [toEdges] returns one edge per content token
    and [order] more; the first edge leaves the node of [order] end tokens
    and the last edge arrives at it. *)
Theorem learned_edges `{GoRuntime} `{Collaborators graph} (g : graph)
    (order : Z) (tokenIds : list tokenID) :
  1 <= order ->
  endTokenID g <> spaceTokenID ->
  wellSpaced true tokenIds = true ->
  exists es,
    toEdges order (toChain g order tokenIds) = Ok es
    /\ length es
       = (length (filter (fun x => x <> spaceTokenID) tokenIds)
          + Z.to_nat order)%nat
    /\ (forall e, head es = Some e ->
          e.(prev) = replicate (Z.to_nat order) (endTokenID g))
    /\ (forall e, last es = Some e ->
          e.(next) = replicate (Z.to_nat order) (endTokenID g)).
Proof.
  intros Hord Hend Hids.
  set (n := Z.to_nat order).
  set (content := filter (fun x => x <> spaceTokenID) tokenIds).
  set (pad := replicate n (endTokenID g)).
  assert ((compact (toChain g order tokenIds)).1 = pad ++ content ++ pad)
    as Htokens.
  { rewrite compact_spec.
    rewrite (compactFrom_wellSpaced (length (toChain g order tokenIds)))
      by (done || now apply wellSpaced_chain).
    cbn [fst]. rewrite toChain_spec, !filter_app.
    now rewrite filter_sentinels. }
  assert (length pad = n) as Hpad by apply length_replicate.
  rewrite toEdges_within
    by (rewrite Htokens, !length_app, Hpad; lia).
  rewrite Htokens. eexists. split; [reflexivity|].
  assert (length (edgeLoop (length (pad ++ content ++ pad)) order
                    (pad ++ content ++ pad) 1
                    (compact (toChain g order tokenIds)).2
                    (take (Z.to_nat order) (pad ++ content ++ pad)) [])
          = (length content + n)%nat) as Hcount.
  { rewrite edgeLoop_length, !length_app, Hpad. lia. }
  split; [exact Hcount|]. split.
  - intros e He. rewrite head_lookup in He.
    apply edgeLoop_lookup in He as [-> _]. fold n.
    now rewrite take_app_length'.
  - intros e He. rewrite last_lookup, Hcount in He.
    apply edgeLoop_lookup in He as [_ ->]. fold n. unfold Go.slice.
    replace (1 + pred (length content + n))%nat with (length content + n)%nat
      by lia.
    replace (length content + n + n - (length content + n))%nat with n by lia.
    rewrite app_assoc, drop_app_length'
      by (rewrite length_app, Hpad; lia).
    apply take_ge. lia.
Qed.

Lemma learned_edges_witness :
  let g := memNew 2 "cobe" in
  let ids := [5; spaceTokenID; 6] in
  1 <= 2
  /\ @endTokenID _ (memCollaborators memDisk) g <> spaceTokenID
  /\ wellSpaced true ids = true
  /\ exists es,
       @toEdges goRuntime 2 (@toChain _ (memCollaborators memDisk) g 2 ids)
       = Ok es
       /\ length es
          = (length (filter (fun x => x <> spaceTokenID) ids) + 2)%nat
       /\ (forall e, head es = Some e -> e.(prev) = [1; 1])
       /\ (forall e, last es = Some e -> e.(next) = [1; 1]).
Proof.
  assert (order_ok : 1 <= 2) by lia.
  assert (end_ok : @endTokenID _ (memCollaborators memDisk) (memNew 2 "cobe")
                   <> spaceTokenID) by (cbn; discriminate).
  exact (conj order_ok (conj end_ok (conj eq_refl
           (@learned_edges goRuntime _ (memCollaborators memDisk)
              (memNew 2 "cobe") 2 [5; spaceTokenID; 6] order_ok end_ok
              eq_refl)))).
Defined.

(** ** [join] and [ToString] *)

(** X7: [join] puts the reverse path back to front before the forward
    path, and keeps every edge of both. *)
Theorem join_reverses (rev fwd : list edgeID) :
  join rev fwd = reverse rev ++ fwd
  /\ length (join rev fwd) = (length rev + length fwd)%nat.
Proof.
  rewrite join_spec. split; [done|].
  now rewrite length_app, length_reverse.
Qed.

Lemma append_empty_r (s : string) : String.append s "" = s.
Proof.
  induction s as [|c s IH]; [done|].
  change (String c (String.append s "") = String c s). now f_equal.
Qed.

Lemma append_assoc (s1 s2 s3 : string) :
  String.append (String.append s1 s2) s3
  = String.append s1 (String.append s2 s3).
Proof.
  induction s1 as [|c s1 IH]; [done|].
  change (String c (String.append (String.append s1 s2) s3)
          = String c (String.append s1 (String.append s2 s3))).
  now f_equal.
Qed.

Lemma concat_cons (s : string) (l : list string) :
  String.concat "" (s :: l) = String.append s (String.concat "" l).
Proof.
  destruct l; [|done]. cbn [String.concat]. symmetry. apply append_empty_r.
Qed.

Lemma concat_app (l1 l2 : list string) :
  String.concat "" (l1 ++ l2)
  = String.append (String.concat "" l1) (String.concat "" l2).
Proof.
  induction l1 as [|s l1 IH]; [done|].
  cbn [app]. now rewrite !concat_cons, IH, append_assoc.
Qed.

(** The words and spaces [ToString] collects for a list of edges. *)
Lemma ToString_parts `{Collaborators graph} (g : graph) es : forall parts,
  foldl (fun parts e =>
           let '(word, hasSpace, _) := getTextByEdge g e in
           let parts := parts ++ [word] in
           if hasSpace then parts ++ [" "%string] else parts)
        parts es
  = parts ++ flat_map (fun e => let '(word, hasSpace, _) := getTextByEdge g e in
                                word :: if hasSpace then [" "%string] else [])
               es.
Proof.
  induction es as [|e es IH]; intros parts; cbn [foldl flat_map].
  - now rewrite app_nil_r.
  - rewrite IH. destruct (getTextByEdge g e) as [[word space] err].
    destruct space; cbn [app]; now rewrite <- !app_assoc.
Qed.

(** X8: the text of a reply that has no cached text is the text of its
    edges in order: the text of a path made of two parts is the text of
    the first part followed by the text of the second, so the text of a
    joined reply is the text of the reversed reverse path followed by the
    text of the forward path. *)
Theorem ToString_app `{Collaborators graph} (g : graph)
    (es1 es2 rev fwd : list edgeID) :
  ToString g (newReply (es1 ++ es2))
  = String.append (ToString g (newReply es1)) (ToString g (newReply es2))
  /\ ToString g (newReply (join rev fwd))
     = String.append (ToString g (newReply (reverse rev)))
                     (ToString g (newReply fwd)).
Proof.
  assert (forall a b, ToString g (newReply (a ++ b))
                      = String.append (ToString g (newReply a))
                                      (ToString g (newReply b))) as Happ.
  { intros a b. unfold ToString, newReply. cbn [hasText edges].
    rewrite !ToString_parts. cbn [app].
    now rewrite flat_map_app, concat_app. }
  split; [apply Happ|]. rewrite join_spec. apply Happ.
Qed.

(** ** [unique] and [uniqueIds] *)

(** The keys of the counting map are the entries of the list. *)
Lemma counted_keys `{Countable K} (l : list K) : forall (m : gmap K Z) (x : K),
  is_Some (foldl (fun m k => <[k := default 0 (m !! k) + 1]> m) m l !! x)
  <-> is_Some (m !! x) \/ x ∈ l.
Proof.
  induction l as [|k l IH]; intros m x; cbn [foldl].
  - split; [now left|]. intros [Hm|Hin]; [done|]. now apply elem_of_nil in Hin.
  - rewrite IH, elem_of_cons. destruct (decide (k = x)) as [->|Hne].
    + rewrite lookup_insert_eq. split; [intros _; right; now left|].
      intros _. left. now eexists.
    + rewrite lookup_insert_ne by done. split; [tauto|].
      intros [Hm|[Heq|Hin]]; [tauto|congruence|tauto].
Qed.

Lemma ranged_keys `{GoRuntime} `{Countable K} (l : list K) (r : nat) :
  let m : gmap K Z :=
    foldl (fun m k => <[k := default 0 (m !! k) + 1]> m) ∅ l in
  NoDup (rangeOrder r (map fst (map_to_list m)))
  /\ forall x, x ∈ rangeOrder r (map fst (map_to_list m)) <-> x ∈ l.
Proof.
  intros m.
  assert (map fst (map_to_list m) = (map_to_list m).*1) as ->
    by (induction (map_to_list m); [done|cbn; now f_equal]).
  split.
  - rewrite (rangeOrder_perm K r). apply NoDup_fst_map_to_list.
  - intros x. rewrite (rangeOrder_perm K r), list_elem_of_fmap.
    pose proof (counted_keys l ∅ x) as Hkeys. fold m in Hkeys.
    rewrite lookup_empty in Hkeys. split.
    + intros [[k v] [-> Hin]]. apply elem_of_map_to_list in Hin. cbn [fst] in *.
      destruct (proj1 Hkeys (ex_intro _ v Hin)) as [[? [=]]|Hl]; done.
    + intros Hin. destruct (proj2 Hkeys (or_intror Hin)) as [v Hv].
      exists (x, v). split; [done|]. now apply elem_of_map_to_list.
Qed.

(** X9: [unique] returns every token of its input exactly once, in some
    order, and makes one random draw. *)
Theorem unique_distinct `{GoRuntime} (rnd : nat -> nat) (tokens : list string)
    (n : nat) :
  exists uniq,
    unique rnd tokens n = Ok (uniq, S n)
    /\ NoDup uniq
    /\ forall token, token ∈ uniq <-> token ∈ tokens.
Proof.
  eexists. split; [reflexivity|]. apply ranged_keys.
Qed.

(** X10: [uniqueIds] returns every id of its input exactly once, in some
    order, and makes one random draw. *)
Theorem uniqueIds_distinct `{GoRuntime} (rnd : nat -> nat)
    (ids : list tokenID) (n : nat) :
  exists uniq,
    uniqueIds rnd ids n = Ok (uniq, S n)
    /\ NoDup uniq
    /\ forall id, id ∈ uniq <-> id ∈ ids.
Proof.
  eexists. split; [reflexivity|]. apply ranged_keys.
Qed.

(** ** Pivot candidates *)

Lemma babbleLoop_spec `{Collaborators graph} (rnd : nat -> nat) (g : graph)
    passes : forall tokenIds n,
  babbleLoop rnd g passes tokenIds n
  = Ok (tokenIds ++ filter (fun t => 0 < t)
                      (map (fun k => getRandomToken g (rnd k)) (seq n passes)),
        (passes + n)%nat).
Proof.
  induction passes as [|passes IH]; intros tokenIds n.
  - cbn. now rewrite app_nil_r.
  - cbn [babbleLoop seq map]. unfold bindM, draw. rewrite IH.
    replace (passes + S n)%nat with (S passes + n)%nat by lia.
    destruct (Z.ltb_spec 0 (getRandomToken g (rnd n))).
    + rewrite filter_cons_True by done. now rewrite <- app_assoc.
    + rewrite filter_cons_False by lia. done.
Qed.

(** X11: [babble] makes five draws and returns, in the order drawn, the
    random tokens among them that are valid (greater than 0): at most five
    ids, none of them invalid, and none when the vocabulary is empty. *)
Theorem babble_tokens `{Collaborators graph} (rnd : nat -> nat) (g : graph)
    (n : nat) :
  exists tokenIds,
    babble rnd g n = Ok (tokenIds, (5 + n)%nat)
    /\ tokenIds = filter (fun t => 0 < t)
                    (map (fun k => getRandomToken g (rnd k)) (seq n 5))
    /\ (length tokenIds <= 5)%nat
    /\ Forall (fun t => 0 < t) tokenIds.
Proof.
  unfold babble. rewrite babbleLoop_spec. eexists. split; [reflexivity|].
  split; [done|]. split.
  - etransitivity; [apply length_filter|]. now rewrite length_map, length_seq.
  - apply Forall_forall. now intros t [Ht _]%list_elem_of_filter.
Qed.

(** X12: [pickPivot] panics on an empty candidate list, and on any other
    list it makes one draw and returns one of the candidates. *)
Theorem pickPivot_member (rnd : nat -> nat) (tokenIds : list tokenID)
    (n : nat) :
  match tokenIds with
  | [] => pickPivot rnd tokenIds n = Panic InvalidArgumentToIntn
  | _ :: _ =>
    exists pivot, pickPivot rnd tokenIds n = Ok (pivot, S n)
                  /\ pivot ∈ tokenIds
  end.
Proof.
  destruct tokenIds as [|t tokenIds]; [reflexivity|].
  unfold pickPivot, bindM, draw, liftM, retM, Go.Intn.
  set (len := Z.of_nat (length (t :: tokenIds))).
  assert (0 < len) as Hlen by (subst len; cbn [length]; lia).
  destruct (Z.leb_spec len 0); [lia|].
  eexists. split; [reflexivity|].
  apply list_elem_of_In, nth_In.
  pose proof (Z.mod_pos_bound (Z.of_nat (rnd n)) len Hlen). lia.
Qed.

Lemma conflateStems_spec `{Collaborators graph} (g : graph) tokens x :
  x ∈ conflateStems g tokens
  <-> exists w, w ∈ tokens /\ x ∈ getTokensByStem g w.
Proof.
  unfold conflateStems.
  assert (forall acc,
            x ∈ foldl (fun ret token => ret ++ getTokensByStem g token) acc tokens
            <-> x ∈ acc \/ exists w, w ∈ tokens /\ x ∈ getTokensByStem g w)
    as Hgen.
  { induction tokens as [|w tokens IH]; intros acc; cbn [foldl].
    - split; [now left|]. intros [Hacc|(w & Hw & _)]; [done|].
      now apply elem_of_nil in Hw.
    - rewrite IH, elem_of_app. split.
      + intros [[Hacc|Hw]|(w' & Hw' & Hx)]; [now left| |].
        * right. exists w. split; [now left|done].
        * right. exists w'. split; [now right|done].
      + intros [Hacc|(w' & [->|Hw']%elem_of_cons & Hx)].
        * left. now left.
        * left. now right.
        * right. now exists w'. }
  rewrite Hgen. split; [|now right].
  intros [Hnil|Hw]; [now apply elem_of_nil in Hnil|done].
Qed.

(** X13: the pivot candidates of [Reply] are, each once, the ids that
    [filterPivots] returns for the distinct input tokens and the ids that
    share a stem with an input token; only when there is none of either
    does [Reply] babble, and then the candidates are at most five valid
    random tokens. *)
Theorem pivotCandidates_spec `{GoRuntime} `{Collaborators graph}
    (rnd : nat -> nat) (g : graph) (tokens : list string) (n : nat) :
  exists uniq tokenIds n',
    pivotCandidates rnd g tokens n = Ok (tokenIds, n')
    /\ NoDup uniq
    /\ (forall w, w ∈ uniq <-> w ∈ tokens)
    /\ ((tokenIds <> [] /\ n' = S (S n) /\ NoDup tokenIds
         /\ forall x, x ∈ tokenIds
              <-> x ∈ filterPivots g uniq
                  \/ exists w, w ∈ tokens /\ x ∈ getTokensByStem g w)
        \/ (n' = (7 + n)%nat /\ filterPivots g uniq = []
            /\ (forall w, w ∈ tokens -> getTokensByStem g w = [])
            /\ (length tokenIds <= 5)%nat
            /\ Forall (fun t => 0 < t) tokenIds)).
Proof.
  unfold pivotCandidates, bindM.
  unfold unique at 1, uniqueIds at 1, bindM, draw, retM.
  set (uniq := rangeOrder (rnd n) _).
  set (ids := rangeOrder (rnd (S n)) _).
  destruct (ranged_keys tokens (rnd n)) as [Hnodup Hmem].
  destruct (ranged_keys (filterPivots g uniq ++ conflateStems g tokens)
              (rnd (S n))) as [Hidnodup Hidmem].
  fold uniq in Hnodup, Hmem. fold ids in Hidnodup, Hidmem.
  assert (forall x, x ∈ ids
            <-> x ∈ filterPivots g uniq
                \/ exists w, w ∈ tokens /\ x ∈ getTokensByStem g w) as Hids.
  { intros x. now rewrite Hidmem, elem_of_app, conflateStems_spec. }
  exists uniq. clearbody ids. clear Hidmem. destruct ids as [|x more].
  - cbn [length Nat.eqb]. unfold babble. rewrite babbleLoop_spec.
    eexists _, _. split; [reflexivity|]. split; [done|]. split; [done|].
    right. split; [done|]. split; [|split; [|split]].
    + apply elem_of_nil_inv. intros y Hy.
      apply (not_elem_of_nil y), Hids. now left.
    + intros w Hw. apply elem_of_nil_inv. intros y Hy.
      apply (not_elem_of_nil y), Hids. right. now exists w.
    + cbn [app]. etransitivity; [apply length_filter|].
      now rewrite length_map, length_seq.
    + apply Forall_forall. now intros t [Ht _]%list_elem_of_filter.
  - cbn [length Nat.eqb]. eexists _, _. split; [reflexivity|].
    split; [done|]. split; [done|]. left.
    split; [discriminate|]. split; [reflexivity|]. split; [exact Hidnodup|].
    exact Hids.
Qed.

(** ** The loop of [Reply] *)

Lemma scoredLoop_length `{GoRuntime} `{Collaborators graph} (rnd : nat -> nat)
    (g : graph) ticks tokenIds : forall it n cs n',
  scoredLoop rnd g ticks tokenIds it n = Ok (cs, n') ->
  (length cs <= ticks)%nat.
Proof.
  induction ticks as [|ticks IH]; intros it n cs n'.
  - intros [= <- _]. done.
  - cbn [scoredLoop]. unfold bindM.
    destruct (attempt rnd g tokenIds it n) as [[a n1]|]; [|done].
    destruct (scoredLoop rnd g ticks tokenIds a.2 n1) as [[rest n2]|] eqn:Hrest;
      [|done].
    apply IH in Hrest. unfold retM. intros [= <- _].
    destruct a.1; cbn [length]; lia.
Qed.

Lemma consider_count `{Collaborators graph} (g : graph) cs : forall sel,
  (foldl (consider g) sel cs).(count) = sel.(count) + Z.of_nat (length cs).
Proof.
  induction cs as [|c cs IH]; intros sel; cbn [foldl length]; [lia|].
  rewrite IH. unfold consider. cbn [count].
  destruct (negb (Qle_bool (Score g c) sel.(bestScore))); cbn [count]; lia.
Qed.

(** X14: the counter of the loop of [Reply] counts the candidates that were
    scored, one for every pass that produced a path and none for a pass
    that restarted the search; it never exceeds the number of passes. *)
Theorem replyLoop_count `{GoRuntime} `{Collaborators graph} (rnd : nat -> nat)
    (g : graph) (ticks : nat) (tokenIds : list tokenID)
    (it : searchIter * searchIter) (sel : selection) (n : nat) :
  match scoredLoop rnd g ticks tokenIds it n with
  | Ok (cs, n') =>
    exists sel',
      replyLoop rnd g ticks tokenIds it sel n = Ok (sel', n')
      /\ sel'.(count) = sel.(count) + Z.of_nat (length cs)
      /\ (length cs <= ticks)%nat
  | Panic p => replyLoop rnd g ticks tokenIds it sel n = Panic p
  end.
Proof.
  rewrite replyLoop_scored.
  destruct (scoredLoop rnd g ticks tokenIds it n) as [[cs n']|] eqn:Hcs; [|done].
  eexists. split; [reflexivity|]. split; [apply consider_count|].
  eapply scoredLoop_length, Hcs.
Qed.

(** X15: with a tokenizer and a vocabulary, so that every random token is
    valid, [Reply] returns for every text and every deadline; what it
    returns is the "no reply" text or the text of one of the candidates it
    scored, of which there is at most one per pass of its loop. *)
Theorem Reply_returns `{GoRuntime} `{Collaborators graph} (rnd : nat -> nat)
    (ticks : nat) (b : Brain graph) (t : tokenizer) (text : string) :
  b.(tok) = Some t ->
  (forall r, 0 < getRandomToken b.(graphOf) r) ->
  exists cs out,
    scored rnd ticks b text = Ok cs
    /\ Reply rnd ticks b text = Ok out
    /\ (length cs <= ticks)%nat
    /\ (out = "no replies :  ("%string
        \/ exists r, r ∈ cs /\ out = ToString b.(graphOf) r).
Proof.
  intros Htok Hvalid.
  destruct (pivotCandidates_nonempty rnd b.(graphOf) (Split t text) 0 Hvalid)
    as (x & tokenIds & n & Hcandidates).
  destruct (scored_runs rnd ticks b t text x tokenIds n Htok Hcandidates)
    as [cs Hcs].
  exists cs. eexists. split; [exact Hcs|].
  split; [apply (Reply_scored _ _ _ _ _ Hcs)|]. split.
  - revert Hcs. unfold scored, scoredM, bindM. rewrite Htok, Hcandidates.
    destruct (replySearch rnd b.(graphOf) (x :: tokenIds) n) as [[it n1]|];
      [|done].
    destruct (scoredLoop rnd b.(graphOf) ticks (x :: tokenIds) it n1)
      as [[cs' n2]|] eqn:Hloop; [|done].
    cbn. intros [= <-]. eapply scoredLoop_length, Hloop.
  - pose proof (selected_foldl b.(graphOf) cs [] (mkSelection None (-1) 0))
      as Hsel.
    cbn [app] in Hsel. unfold selected, replyOf in *.
    destruct (bestReply (foldl (consider b.(graphOf))
                           (mkSelection None (-1) 0) cs)) as [r|];
      [|now left].
    right. destruct Hsel as (before & after & -> & _).
    { cbn. split; [done|constructor]. }
    exists r. split; [|done]. apply elem_of_app. right. now left.
Qed.

Lemma memTalk_vocabulary score r :
  0 < @getRandomToken _ (memCollaborators memDisk) (memTalk score) r.
Proof.
  cbn. rewrite insert_empty, map_to_list_singleton. unfold memPick.
  cbn [map length snd]. rewrite Nat.mod_1_r. cbn. lia.
Qed.

Lemma Reply_returns_witness :
  let b := mkBrain (memTalk (fun _ => 1%Q)) (Some cobeTokenizer) in
  b.(tok) = Some cobeTokenizer
  /\ (forall r, 0 < @getRandomToken _ (memCollaborators memDisk) b.(graphOf) r)
  /\ exists cs out,
       @scored goRuntime _ (memCollaborators memDisk) (fun n => n) 3 b "zzz"
       = Ok cs
       /\ @Reply goRuntime _ (memCollaborators memDisk) (fun n => n) 3 b "zzz"
          = Ok out
       /\ (length cs <= 3)%nat
       /\ (out = "no replies :  ("%string
           \/ exists r, r ∈ cs
                /\ out = @ToString _ (memCollaborators memDisk) b.(graphOf) r).
Proof.
  exact (conj eq_refl (conj (memTalk_vocabulary (fun _ => 1%Q))
           (@Reply_returns goRuntime _ (memCollaborators memDisk) (fun n => n) 3
              (mkBrain (memTalk (fun _ => 1%Q)) (Some cobeTokenizer))
              cobeTokenizer "zzz" eq_refl
              (memTalk_vocabulary (fun _ => 1%Q))))).
Defined.

(** ** The constructor and the brain it returns *)

(** The ways [OpenBrain] can fail, taken apart and compared with what the
    store returned. *)
Ltac open_cases :=
  intros Hcase;
  repeat match type of Hcase with
         | _ \/ _ => destruct Hcase as [Hcase|Hcase]
         | exists _, _ => destruct Hcase as [? Hcase]
         | _ /\ _ =>
           let Hleft := fresh "Hleft" in destruct Hcase as [Hleft Hcase]
         end;
  simplify_eq; congruence.

(** X16: [OpenBrain] returns a brain exactly for a store that opens, reads
    version 2 and has a tokenizer entry, with the tokenizer of that name;
    it returns the store's own error when the store does not open or lacks
    one of the two entries, and the error "cannot read version V brain"
    for another version V. *)
Theorem OpenBrain_outcome `{Collaborators graph} (path : string)
    (b : Brain graph) (err : string) :
  (OpenBrain path = Val b <->
   exists name,
     openGraph path = Val b.(graphOf)
     /\ GetInfoString b.(graphOf) "version" = Val "2"%string
     /\ GetInfoString b.(graphOf) "tokenizer" = Val name
     /\ b.(tok) = getTokenizer name)
  /\ (OpenBrain path = Err err <->
      openGraph path = Err err
      \/ exists g,
           openGraph path = Val g
           /\ (GetInfoString g "version" = Err err
               \/ (exists version,
                     GetInfoString g "version" = Val version
                     /\ version <> "2"%string
                     /\ err = String.append "cannot read version "
                                (String.append version " brain"))
               \/ (GetInfoString g "version" = Val "2"%string
                   /\ GetInfoString g "tokenizer" = Err err))).
Proof.
  split; [apply OpenBrain_succeeds|]. unfold OpenBrain.
  destruct (openGraph path) as [g|e] eqn:Hopen.
  2:{ split; [intros [= ->]; now left|open_cases]. }
  destruct (GetInfoString g "version") as [version|e] eqn:Hversion.
  2:{ split; [|open_cases].
      intros [= ->]. right. exists g. split; [done|]. now left. }
  destruct (String.eqb_spec version "2") as [->|Hne]; cbn [negb].
  - destruct (GetInfoString g "tokenizer") as [name|e] eqn:Hname.
    + split; [done|open_cases].
    + split; [|open_cases].
      intros [= ->]. right. exists g. split; [done|]. right. now right.
  - split; [|open_cases].
    intros [= <-]. right. exists g. split; [done|]. right. left.
    now exists version.
Qed.

(** X17: a brain that [OpenBrain] returns for a store whose tokenizer name
    is not recognized panics on a nil tokenizer in every [Learn] and every
    [Reply], before the store is touched. *)
Theorem unrecognized_tokenizer_panics `{GoRuntime} `{Collaborators graph}
    (path : string) (b : Brain graph) (name : string) :
  OpenBrain path = Val b ->
  GetInfoString b.(graphOf) "tokenizer" = Val name ->
  getTokenizer name = None ->
  forall text,
    Learn b text = Panic NilDereference
    /\ forall rnd ticks, Reply rnd ticks b text = Panic NilDereference.
Proof.
  intros Hopen Hname Hnil text.
  apply OpenBrain_succeeds in Hopen as (name' & _ & _ & Hname' & Htok).
  rewrite Hname in Hname'. injection Hname' as <-. rewrite Hnil in Htok.
  unfold Learn, Reply. now rewrite Htok.
Qed.

Lemma unrecognized_tokenizer_panics_witness :
  let b := mkBrain (memNew 3 "none") None in
  @OpenBrain _ (memCollaborators memDisk) "other.brain" = Val b
  /\ @GetInfoString _ (memCollaborators memDisk) b.(graphOf) "tokenizer"
     = Val "none"%string
  /\ getTokenizer "none" = None
  /\ forall text,
       @Learn goRuntime _ (memCollaborators memDisk) b text
       = Panic NilDereference
       /\ forall rnd ticks,
            @Reply goRuntime _ (memCollaborators memDisk) rnd ticks b text
            = Panic NilDereference.
Proof.
  assert (opened : @OpenBrain _ (memCollaborators memDisk) "other.brain"
                   = Val (mkBrain (memNew 3 "none") None))
    by (vm_compute; reflexivity).
  assert (name : @GetInfoString _ (memCollaborators memDisk)
                   (memNew 3 "none") "tokenizer" = Val "none"%string)
    by (vm_compute; reflexivity).
  exact (conj opened (conj name (conj eq_refl
           (@unrecognized_tokenizer_panics goRuntime _
              (memCollaborators memDisk) "other.brain"
              (mkBrain (memNew 3 "none") None) "none" opened name eq_refl)))).
Defined.

Lemma lowerByte_idempotent c : Go.lowerByte (Go.lowerByte c) = Go.lowerByte c.
Proof. destruct c as [[] [] [] [] [] [] [] []]; reflexivity. Qed.

Lemma ToLower_idempotent s : Go.ToLower (Go.ToLower s) = Go.ToLower s.
Proof.
  induction s as [|c s IH]; [done|].
  cbn [Go.ToLower]. now rewrite lowerByte_idempotent, IH.
Qed.

(** X18: [getTokenizer] does not look at the case of the ASCII letters of
    the name: a name and its lower-case form select the same tokenizer,
    and a tokenizer is selected exactly when the lower-case form is [cobe]
    or [megahal]. *)
Theorem getTokenizer_case (name : string) :
  getTokenizer (Go.ToLower name) = getTokenizer name
  /\ (getTokenizer name = Some cobeTokenizer
      <-> Go.ToLower name = "cobe"%string)
  /\ (getTokenizer name = Some megaHALTokenizer
      <-> Go.ToLower name = "megahal"%string)
  /\ (getTokenizer name = None
      <-> Go.ToLower name <> "cobe"%string
          /\ Go.ToLower name <> "megahal"%string).
Proof.
  unfold getTokenizer. rewrite ToLower_idempotent.
  split; [done|].
  destruct (String.eqb_spec (Go.ToLower name) "cobe") as [Hc|Hc];
    [rewrite Hc; repeat split; try done; intros [? ?]; done|].
  destruct (String.eqb_spec (Go.ToLower name) "megahal") as [Hm|Hm];
    repeat split; try done. intros [? ?]; done.
Qed.

(** ** The learner's token loop *)

(** X19: [countGoodTokens] is the number of tokens other than the space
    marker: it is never negative and never more than the number of tokens,
    and it is the number of tokens exactly when none is a space marker. *)
Theorem countGoodTokens_counts (tokens : list string) :
  countGoodTokens tokens
  = Z.of_nat (length (filter (fun t => t <> " "%string) tokens))
  /\ 0 <= countGoodTokens tokens <= Z.of_nat (length tokens)
  /\ (countGoodTokens tokens = Z.of_nat (length tokens)
      <-> Forall (fun t => t <> " "%string) tokens).
Proof.
  rewrite countGoodTokens_spec.
  pose proof (length_filter (fun t => t <> " "%string) tokens) as Hle.
  split; [done|]. split; [lia|].
  induction tokens as [|t tokens IH]; [done|].
  pose proof (length_filter (fun t => t <> " "%string) tokens) as Hle'.
  destruct (decide (t = " "%string)) as [->|Hne].
  - rewrite filter_cons_False by tauto. cbn [length]. split; [lia|].
    intros [Ht _]%Forall_cons. done.
  - rewrite filter_cons_True by done. cbn [length]. split.
    + intros Heq. constructor; [done|]. apply IH; lia.
    + intros [_ Hall]%Forall_cons. apply IH in Hall; lia.
Qed.

(** X20: the token loop of [Learn] asks the store for every token other
    than the space marker, once per occurrence and in order, and never for
    the space marker; the ids it returns line up with the tokens, with the
    space sentinel at every space marker. *)
Theorem learnTokens_aligned `{Collaborators graph} (g : graph)
    (tokens : list string) :
  (learnTokens g tokens).1
  = foldl (fun g w => (GetOrCreateToken g w).1) g
      (filter (fun w => w <> " "%string) tokens)
  /\ length (learnTokens g tokens).2 = length tokens
  /\ forall i w, tokens !! i = Some w ->
       exists id, (learnTokens g tokens).2 !! i = Some id
         /\ if decide (w = " "%string) then id = spaceTokenID
            else exists g', id = (GetOrCreateToken g' w).2.
Proof.
  unfold learnTokens.
  assert (forall acc g,
    let r := foldl (fun '(g, tokenIds) text =>
                      if String.eqb text " " then (g, tokenIds ++ [spaceTokenID])
                      else let '(g, id) := GetOrCreateToken g text in
                           (g, tokenIds ++ [id]))
                   (g, acc) tokens in
    r.1 = foldl (fun g w => (GetOrCreateToken g w).1) g
            (filter (fun w => w <> " "%string) tokens)
    /\ exists ids,
         r.2 = acc ++ ids /\ length ids = length tokens
         /\ forall i w, tokens !! i = Some w ->
              exists id, ids !! i = Some id
                /\ if decide (w = " "%string) then id = spaceTokenID
                   else exists g', id = (GetOrCreateToken g' w).2) as Hgen.
  { clear g. induction tokens as [|w tokens IH]; intros acc g; cbn [foldl].
    - cbn. split; [done|]. exists []. now rewrite app_nil_r.
    - destruct (String.eqb_spec w " ") as [->|Hne].
      + destruct (IH (acc ++ [spaceTokenID]) g) as (Hstore & ids & Hids & Hlen & Hat).
        rewrite filter_cons_False by tauto. split; [exact Hstore|].
        exists (spaceTokenID :: ids). rewrite Hids, <- app_assoc.
        split; [done|]. split; [cbn [length]; lia|].
        intros [|i] w'; cbn [lookup list_lookup].
        * intros [= <-]. exists spaceTokenID. split; [done|].
          now rewrite decide_True.
        * apply Hat.
      + destruct (GetOrCreateToken g w) as [g1 id] eqn:Hcreate.
        destruct (IH (acc ++ [id]) g1) as (Hstore & ids & Hids & Hlen & Hat).
        rewrite filter_cons_True by done. cbn [foldl].
        rewrite Hcreate. cbn [fst]. split; [exact Hstore|].
        exists (id :: ids). rewrite Hids, <- app_assoc.
        split; [done|]. split; [cbn [length]; lia|].
        intros [|i] w'; cbn [lookup list_lookup].
        * intros [= <-]. exists id. split; [done|].
          rewrite decide_False by done. exists g. now rewrite Hcreate.
        * apply Hat. }
  destruct (Hgen [] g) as (Hstore & ids & Hids & Hlen & Hat).
  cbn [app] in Hids. rewrite Hids. now repeat split.
Qed.

(** ** Helpers of the tests *)

Lemma nodeEqualLoop_spec fuel (a b : list tokenID) : forall i,
  (length a - i <= fuel)%nat ->
  length a = length b ->
  nodeEqualLoop fuel a b i = true <-> drop i a = drop i b.
Proof.
  induction fuel as [|fuel IH]; intros i Hfuel Hlen.
  - cbn. split; [intros _|done]. now rewrite !drop_ge by lia.
  - cbn [nodeEqualLoop]. destruct (Nat.ltb_spec i (length a)) as [Hlt|Hge].
    + destruct (lookup_lt_is_Some_2 a i Hlt) as [x Hx].
      destruct (lookup_lt_is_Some_2 b i ltac:(lia)) as [y Hy].
      rewrite (nth_lookup_Some _ _ _ _ Hx), (nth_lookup_Some _ _ _ _ Hy).
      rewrite (drop_S _ _ _ Hx), (drop_S _ _ _ Hy).
      destruct (Z.eqb_spec x y) as [->|Hne]; cbn [negb].
      * rewrite IH by lia. replace (i + 1)%nat with (S i) by lia.
        split; [now intros ->|now intros [= ->]].
      * split; [done|]. now intros [= ->].
    + split; [intros _|done]. now rewrite !drop_ge by lia.
Qed.

(** X21: [nodeEqual] decides whether two nodes are the same sequence of
    token ids; nodes of different lengths are never equal. *)
Theorem nodeEqual_eq (a b : list tokenID) : nodeEqual a b = true <-> a = b.
Proof.
  unfold nodeEqual. destruct (Nat.eqb_spec (length a) (length b)) as [Hlen|Hlen];
    cbn [negb].
  - now rewrite nodeEqualLoop_spec by (done || lia).
  - split; [done|]. intros ->. done.
Qed.

(** X22: [edgeEqual] decides whether two edges are the same: the same
    [prev], the same [next] and the same flag. *)
Theorem edgeEqual_eq (a b : edge) : edgeEqual a b = true <-> a = b.
Proof.
  unfold edgeEqual. destruct a as [pa na sa], b as [pb nb sb]. cbn [prev next hasSpace].
  rewrite !andb_true_iff, eqb_true_iff.
  unfold nodeEqual.
  destruct (Nat.eqb_spec (length pa) (length pb)) as [Hp|Hp]; cbn [negb].
  2:{ split; [now intros [[? ?] ?]|]. intros [= -> _ _]. done. }
  destruct (Nat.eqb_spec (length na) (length nb)) as [Hn|Hn]; cbn [negb].
  2:{ split; [now intros [[? ?] ?]|]. intros [= _ -> _]. done. }
  rewrite !nodeEqualLoop_spec by (done || lia). rewrite !drop_0.
  split; [now intros [[-> ->] ->]|now intros [= -> -> ->]].
Qed.

(** ** The space flags of a learned sentence *)

Lemma gaps_app ids rest : forall kept,
  gaps (ids ++ rest) kept
  = gaps ids kept
    ++ gaps rest (kept + Z.of_nat (length (filter (fun x => x <> spaceTokenID)
                                             ids))).
Proof.
  induction ids as [|x ids IH]; intros kept.
  - cbn. now rewrite Z.add_0_r.
  - cbn [app gaps]. destruct (Z.eqb_spec x spaceTokenID) as [->|Hx].
    + rewrite filter_cons_False by tauto. now rewrite IH.
    + rewrite filter_cons_True by done. rewrite IH. cbn [length].
      do 2 f_equal. lia.
Qed.

Lemma gaps_sentinels (x : tokenID) n kept :
  x <> spaceTokenID -> gaps (replicate n x) kept = [].
Proof.
  intros Hx. revert kept. induction n as [|n IH]; intros kept; [done|].
  cbn [replicate gaps]. destruct (Z.eqb_spec x spaceTokenID); [done|]. apply IH.
Qed.

Lemma gaps_bounds ids : forall kept,
  Forall (fun s => kept <= s
                   <= kept + Z.of_nat (length (filter (fun x => x <> spaceTokenID)
                                                 ids)))
         (gaps ids kept).
Proof.
  induction ids as [|x ids IH]; intros kept; [constructor|].
  cbn [gaps]. destruct (Z.eqb_spec x spaceTokenID) as [->|Hx].
  - rewrite filter_cons_False by tauto. constructor; [lia|]. apply IH.
  - rewrite filter_cons_True by done. cbn [length].
    specialize (IH (kept + 1)). weaken IH.
Qed.

(** X23: in the edges of the chain of a sentence whose space markers each
    follow a token or the opening padding, every space marker sets the
    flag of exactly one edge, the edge whose [next] window ends with the
    token after the marker, and no other edge is flagged. *)
Theorem learned_spaces `{GoRuntime} `{Collaborators graph} (g : graph)
    (order : Z) (tokenIds : list tokenID) :
  1 <= order ->
  endTokenID g <> spaceTokenID ->
  wellSpaced true tokenIds = true ->
  exists es,
    toEdges order (toChain g order tokenIds) = Ok es
    /\ (forall k e, es !! k = Some e ->
          e.(hasSpace) = true <-> Z.of_nat k ∈ gaps tokenIds 0)
    /\ (forall s, s ∈ gaps tokenIds 0 ->
          exists e, es !! Z.to_nat s = Some e /\ e.(hasSpace) = true).
Proof.
  intros Hord Hend Hids.
  set (n := Z.to_nat order).
  set (content := filter (fun x => x <> spaceTokenID) tokenIds).
  set (pad := replicate n (endTokenID g)).
  pose proof (wellSpaced_chain g order tokenIds Hord Hend Hids) as Hchain.
  assert (compact (toChain g order tokenIds)
          = (pad ++ content ++ pad, gaps tokenIds order)) as Hcompact.
  { rewrite compact_spec.
    rewrite (compactFrom_wellSpaced (length (toChain g order tokenIds)))
      by done.
    rewrite toChain_spec, !filter_app, !gaps_app. fold n pad content.
    unfold pad. rewrite !filter_sentinels, !gaps_sentinels by done.
    rewrite length_replicate, app_nil_r. cbn [app]. do 2 f_equal. lia. }
  assert (length pad = n) as Hpad by apply length_replicate.
  rewrite toEdges_within
    by (rewrite Hcompact; cbn [fst]; rewrite !length_app, Hpad; lia).
  rewrite Hcompact. cbn [fst snd]. eexists. split; [reflexivity|].
  assert (StronglySorted Z.lt (gaps tokenIds order)) as Hsorted
    by apply (gaps_sorted tokenIds true order Hids).
  assert (forall s, s ∈ gaps tokenIds order <-> s - order ∈ gaps tokenIds 0)
    as Hshift.
  { assert (forall ids k d, gaps ids (k + d) = map (fun s => s + d) (gaps ids k))
      as Hmap.
    { clear. induction ids as [|x ids IH]; intros k d; [done|].
      cbn [gaps]. destruct (x =? spaceTokenID); cbn [map].
      - now rewrite IH.
      - replace (k + d + 1) with (k + 1 + d) by lia. apply IH. }
    intros s. specialize (Hmap tokenIds 0 order).
    replace (0 + order) with order in Hmap by lia.
    rewrite Hmap, !list_elem_of_In, in_map_iff. split.
    - intros (s0 & <- & Hs0). now replace (s0 + order - order) with s0 by lia.
    - intros Hs0. exists (s - order). split; [lia|done]. }
  assert (forall k e,
            edgeLoop (length (pad ++ content ++ pad)) order
              (pad ++ content ++ pad) 1 (gaps tokenIds order)
              (take (Z.to_nat order) (pad ++ content ++ pad)) [] !! k = Some e ->
            e.(hasSpace) = true <-> Z.of_nat k ∈ gaps tokenIds 0) as Hflags.
  { intros k e Hk. eapply edgeLoop_flags in Hk; [|exact Hsorted|].
    - rewrite Hk, Hshift.
      now replace (Z.of_nat (1 + k) + order - 1 - order) with (Z.of_nat k) by lia.
    - pose proof (gaps_bounds tokenIds order) as Hb. weaken Hb. }
  split; [exact Hflags|].
  intros s Hs.
  pose proof (gaps_bounds tokenIds 0) as Hb. rewrite Forall_forall in Hb.
  specialize (Hb s Hs). fold content in Hb.
  destruct (lookup_lt_is_Some_2
              (edgeLoop (length (pad ++ content ++ pad)) order
                 (pad ++ content ++ pad) 1 (gaps tokenIds order)
                 (take (Z.to_nat order) (pad ++ content ++ pad)) [])
              (Z.to_nat s)) as [e He].
  { rewrite edgeLoop_length, !length_app, Hpad. lia. }
  exists e. split; [exact He|]. apply (Hflags _ _ He).
  now replace (Z.of_nat (Z.to_nat s)) with s by lia.
Qed.

Lemma learned_spaces_witness :
  let g := memNew 2 "cobe" in
  let ids := [5; spaceTokenID; 6] in
  1 <= 2
  /\ @endTokenID _ (memCollaborators memDisk) g <> spaceTokenID
  /\ wellSpaced true ids = true
  /\ exists es,
       @toEdges goRuntime 2 (@toChain _ (memCollaborators memDisk) g 2 ids)
       = Ok es
       /\ (forall k e, es !! k = Some e ->
             e.(hasSpace) = true <-> Z.of_nat k ∈ gaps ids 0)
       /\ (forall s, s ∈ gaps ids 0 ->
             exists e, es !! Z.to_nat s = Some e /\ e.(hasSpace) = true).
Proof.
  assert (order_ok : 1 <= 2) by lia.
  assert (end_ok : @endTokenID _ (memCollaborators memDisk) (memNew 2 "cobe")
                   <> spaceTokenID) by (cbn; discriminate).
  exact (conj order_ok (conj end_ok (conj eq_refl
           (@learned_spaces goRuntime _ (memCollaborators memDisk)
              (memNew 2 "cobe") 2 [5; spaceTokenID; 6] order_ok end_ok
              eq_refl)))).
Defined.

(** ** Starting a search *)

(** X24: [replySearch] panics on an empty candidate list; on any other
    list it makes four draws and opens a reverse and a forward generator
    that both start at the same node, a random node of one of the
    candidates, and both aim at the end-of-context node. *)
Theorem replySearch_pivot `{Collaborators graph} (rnd : nat -> nat) (g : graph)
    (tokenIds : list tokenID) (n : nat) :
  match tokenIds with
  | [] => replySearch rnd g tokenIds n = Panic InvalidArgumentToIntn
  | _ :: _ =>
    exists pivot,
      pivot ∈ tokenIds
      /\ let pivotNode := getRandomNodeWithToken g (rnd (S n)) pivot in
         replySearch rnd g tokenIds n
         = Ok ((mkIter (search g (rnd (S (S n))) pivotNode (endContextID g)
                          Reverse) 0 [],
                mkIter (search g (rnd (S (S (S n)))) pivotNode (endContextID g)
                          Forward) 0 []),
               (4 + n)%nat)
  end.
Proof.
  destruct tokenIds as [|t tokenIds]; [reflexivity|].
  unfold replySearch, pickPivot, bindM, draw, liftM, retM, Go.Intn.
  set (len := Z.of_nat (length (t :: tokenIds))).
  assert (0 < len) as Hlen by (subst len; cbn [length]; lia).
  destruct (Z.leb_spec len 0); [lia|].
  eexists. split; [|reflexivity].
  apply list_elem_of_In, nth_In.
  pose proof (Z.mod_pos_bound (Z.of_nat (rnd n)) len Hlen). lia.
Qed.

(** ** Runs of space sentinels *)

(** A space sentinel stays among the tokens exactly when the input has one
    that does not directly follow an entry that is not a sentinel. *)
Lemma dropFollowingSpaces_sentinel ids : forall afterKept,
  spaceTokenID ∈ dropFollowingSpaces afterKept ids
  <-> wellSpaced afterKept ids = false.
Proof.
  induction ids as [|x ids IH]; intros afterKept.
  - cbn. split; [intros Hin; now apply elem_of_nil in Hin|done].
  - cbn [dropFollowingSpaces wellSpaced].
    destruct (Z.eqb_spec x spaceTokenID) as [->|Hx]; cbn [andb].
    + destruct afterKept; cbn [andb]; [apply IH|].
      split; [done|]. intros _. now left.
    + rewrite elem_of_cons, IH. split; [|now right].
      intros [Heq|Hrest]; [congruence|done].
Qed.

Lemma wellSpaced_run pre t rest : forall afterToken,
  t <> spaceTokenID ->
  wellSpaced afterToken (pre ++ t :: spaceTokenID :: spaceTokenID :: rest)
  = false.
Proof.
  induction pre as [|x pre IH]; intros afterToken Ht.
  - cbn [app wellSpaced]. destruct (Z.eqb_spec t spaceTokenID); [done|].
    cbn. reflexivity.
  - cbn [app wellSpaced]. destruct (x =? spaceTokenID).
    + rewrite IH by done. apply andb_false_r.
    + now apply IH.
Qed.

(** Once [toEdges] returns an edge, every token of the compacted stream is
    an entry of a window. *)
Lemma toEdges_covers `{GoRuntime} order tokenIds es x :
  1 <= order ->
  toEdges order tokenIds = Ok es ->
  es <> [] ->
  x ∈ (compact tokenIds).1 ->
  exists e, e ∈ es /\ (x ∈ e.(prev) \/ x ∈ e.(next)).
Proof.
  intros Hord. unfold toEdges.
  destruct (compact tokenIds) as [tokens spaces]. cbn [fst].
  destruct (Go.sliceTo tokens order) as [pv|] eqn:Hpv; [|done].
  cbn. intros [= <-] Hne [j Hj]%list_elem_of_lookup.
  set (es := edgeLoop (length tokens) order tokens 1 spaces pv []) in *.
  assert (Z.of_nat (length es) = Z.of_nat (length tokens) - order
          /\ order < Z.of_nat (length tokens)) as [Hcount Hlong].
  { assert (length es <> 0%nat) as Hpos
      by (intros Hnil; now apply nil_length_inv in Hnil).
    unfold es in *. rewrite edgeLoop_length in *. lia. }
  rewrite sliceTo_within in Hpv by lia. injection Hpv as <-.
  pose proof (lookup_lt_Some _ _ _ Hj) as Hjlt.
  destruct (Nat.lt_ge_cases j (Z.to_nat order)) as [Hfirst|Hlater].
  - destruct (lookup_lt_is_Some_2 es 0 ltac:(lia)) as [e He].
    exists e. split; [eapply list_elem_of_lookup_2, He|]. left.
    apply edgeLoop_lookup in He as [-> _].
    apply (list_elem_of_lookup_2 _ j). now rewrite lookup_take_lt.
  - destruct (lookup_lt_is_Some_2 es (j - Z.to_nat order) ltac:(lia)) as [e He].
    exists e. split; [eapply list_elem_of_lookup_2, He|]. right.
    apply edgeLoop_lookup in He as [_ ->]. unfold Go.slice.
    apply (list_elem_of_lookup_2 _ (Z.to_nat order - 1)).
    rewrite lookup_take_lt, lookup_drop by lia.
    now replace (1 + (j - Z.to_nat order) + (Z.to_nat order - 1))%nat
      with j by lia.
Qed.

(** C2, what the code does with a run of space sentinels: for every order
    n >= 1 and every input in which a content token is followed by two or
    more space sentinels, the run is not collapsed; whenever [toEdges]
    returns an edge at all, a space sentinel of the run is a content entry
    of the [prev] or [next] window of one of the edges. *)
Theorem toEdges_keeps_space `{GoRuntime} (order : Z)
    (before : list tokenID) (t : tokenID) (rest : list tokenID)
    (es : list edge) :
  1 <= order ->
  t <> spaceTokenID ->
  toEdges order (before ++ t :: spaceTokenID :: spaceTokenID :: rest) = Ok es ->
  es <> [] ->
  exists e, e ∈ es
    /\ (spaceTokenID ∈ e.(prev) \/ spaceTokenID ∈ e.(next)).
Proof.
  intros Hord Ht Hrun Hne. apply (toEdges_covers order _ es _ Hord Hrun Hne).
  rewrite compact_tokens. apply dropFollowingSpaces_sentinel.
  now apply wellSpaced_run.
Qed.

Lemma toEdges_keeps_space_witness :
  let es := [mkEdge [1] [spaceTokenID] true; mkEdge [spaceTokenID] [2] false] in
  1 <= 1
  /\ 1 <> spaceTokenID
  /\ @toEdges goRuntime 1 ([] ++ 1 :: spaceTokenID :: spaceTokenID :: [2]) = Ok es
  /\ es <> []
  /\ exists e, e ∈ es
       /\ (spaceTokenID ∈ e.(prev) \/ spaceTokenID ∈ e.(next)).
Proof.
  assert (order_ok : 1 <= 1) by lia.
  assert (content : 1 <> spaceTokenID) by discriminate.
  assert (run : @toEdges goRuntime 1
                  ([] ++ 1 :: spaceTokenID :: spaceTokenID :: [2])
                = Ok [mkEdge [1] [spaceTokenID] true;
                      mkEdge [spaceTokenID] [2] false]) by reflexivity.
  assert (some : [mkEdge [1] [spaceTokenID] true;
                  mkEdge [spaceTokenID] [2] false] <> []) by discriminate.
  exact (conj order_ok (conj content (conj run (conj some
           (@toEdges_keeps_space goRuntime 1 [] 1 [2] _ order_ok content
              run some))))).
Defined.
